(** * Token registry of the API: shallow embedding of [src/api/tokens/tokens.ts]

    The TypeScript module keeps a process-wide cache [tokensByChain] that maps
    every chain to a pair of plain objects: [byId] (logical id -> lower-cased
    address) and [byAddress] (lower-cased address -> token record).  The cache
    is rebuilt by [updateTokens] from three sources (vault listing, boost
    listing, address book) and read through a handful of getters.

    Modelling choices.
    - The plain objects used as dictionaries are [gmap string _] holding
      their own properties.  A plain object also answers for the names it
      inherits from [Object.prototype] ([inherited]): [addToken] tests
      [byId[token.id] === undefined], which is false for such an id, so the
      id is never written; this is modelled.  Addresses are taken not to be
      inherited names (the providers supply hexadecimal addresses and the
      native sentinel).  For an inherited name the getters of the source
      throw or return the inherited function; the model returns no record.
    - Exceptions are an explicit [result] type with one constructor per
      [throw] site, one for each library call that can throw, and one for a
      property write on [undefined].
    - The module-level cache is threaded explicitly as an argument; a run of
      [updateTokens] is a function on the state of the service.  The waits on
      the event bus (startup barrier, re-arming in [finally]) are outside the
      model.
    - The imported providers are read once per chain inside one run; their
      answers during a run are a [Sources] snapshot.
    - [String.prototype.toLowerCase] is modelled on ASCII letters, which is
      what addresses and the identifiers compared by the code consist of.
    - [getAddress] (viem), [isApiChain] and [toApiChain] (utils/chain) are not
      part of the file and are parameters; a property that needs a fact about
      them states it as a premise.
    - JS truthiness of optional strings and numbers is written out
      ([truthyS], [truthy], [or_default], [or_num]); [decimals] are integers.
    - [addToken] stores a native token object itself in [byAddress] (no copy)
      and stored objects are later mutated in place.  A stored object that is
      shared with the input list is the first record of the list with its
      address; it is mutated only while a later record is processed, and the
      fields mutated are never read again from the list, so the value
      semantics used below is observationally the same. *)

From stdpp Require Import gmap strings list fin_maps.
From Stdlib Require Import ZArith Ascii String.

Local Open Scope string_scope.
Local Open Scope Z_scope.
Set Default Proof Using "Type".

(** ** Outcomes *)

Inductive error : Type :=
  | NoNativeFound (chainId : string)      (* getTokenNative *)
  | NoWnativeFound (chainId : string)     (* getTokenWrappedNative *)
  | NoFeesFound (chainId : string)        (* getTokenFees *)
  | InvalidChain (chainId : string)       (* fetchTokensForChain *)
  | NoNativeLoaded (chainId : string)     (* fetchTokensForChain *)
  | NoWnativeLoaded (chainId : string)    (* fetchTokensForChain *)
  | InvalidAddress (address : string)     (* getAddress throws *)
  | UnknownChain (chainId : string)       (* toApiChain throws *)
  | UndefinedAccess (key : string).       (* property write on undefined *)

Inductive result (A : Type) : Type :=
  | Ok (a : A)
  | Err (e : error).
Arguments Ok {A} a.
Arguments Err {A} e.

Global Instance result_ret : MRet result := λ A a, Ok a.
Global Instance result_bind : MBind result := λ A B f r,
  match r with
  | Ok a => f a
  | Err e => Err e
  end.

Definition is_ok {A} (r : result A) : bool :=
  match r with Ok _ => true | Err _ => false end.

(** [Promise.all(xs.map(f))]: every element must succeed. *)
Fixpoint mapR {A B} (f : A → result B) (l : list A) : result (list B) :=
  match l with
  | [] => Ok []
  | x :: l' => y ← f x; ys ← mapR f l'; Ok (y :: ys)
  end.

(** ** JS helpers *)

Definition lower_ascii (c : ascii) : ascii :=
  let n := N_of_ascii c in
  if ((65 <=? n) && (n <=? 90))%N then ascii_of_N (n + 32) else c.

Fixpoint toLowerCase (s : string) : string :=
  match s with
  | EmptyString => EmptyString
  | String c r => String (lower_ascii c) (toLowerCase r)
  end.

(** The property names every plain object inherits from [Object.prototype]:
    for these [o[name]] is not [undefined] although [o] has no such property
    of its own. *)
Definition inherited (name : string) : bool :=
  bool_decide
    (name ∈ ["constructor"; "__proto__"; "hasOwnProperty"; "isPrototypeOf";
             "propertyIsEnumerable"; "toLocaleString"; "toString"; "valueOf";
             "__defineGetter__"; "__defineSetter__"; "__lookupGetter__";
             "__lookupSetter__"]).

(** A string is truthy when it is not empty. *)
Definition truthyS (s : string) : bool := negb (String.eqb s "").

(** An optional string property is truthy when present and not empty. *)
Definition truthy (o : option string) : bool :=
  match o with
  | Some s => truthyS s
  | None => false
  end.

(** [o || d] for an optional string. *)
Definition or_default (o : option string) (d : string) : string :=
  match o with
  | Some s => if truthyS s then s else d
  | None => d
  end.

(** [o || d] for an optional number. *)
Definition or_num (o : option Z) (d : Z) : Z :=
  match o with
  | Some n => if (n =? 0) then d else n
  | None => d
  end.

(** ** Data model (./types) *)

Inductive TokenType : Type := native | erc20.

Global Instance TokenType_eq_dec : EqDecision TokenType.
Proof. solve_decision. Defined.

Record TokenEntity : Type := mkToken {
  te_type : TokenType;
  te_id : string;
  te_symbol : string;
  te_name : string;
  te_chainId : string;
  te_oracle : string;
  te_oracleId : string;
  te_address : string;
  te_decimals : Z;
  te_bridge : option string;
  te_staked : option bool
}.

Definition set_address (a : string) (t : TokenEntity) : TokenEntity :=
  mkToken (te_type t) (te_id t) (te_symbol t) (te_name t) (te_chainId t)
    (te_oracle t) (te_oracleId t) a (te_decimals t) (te_bridge t) (te_staked t).

Definition set_bridge (b : option string) (t : TokenEntity) : TokenEntity :=
  mkToken (te_type t) (te_id t) (te_symbol t) (te_name t) (te_chainId t)
    (te_oracle t) (te_oracleId t) (te_address t) (te_decimals t) b (te_staked t).

Definition set_oracleId (o : string) (t : TokenEntity) : TokenEntity :=
  mkToken (te_type t) (te_id t) (te_symbol t) (te_name t) (te_chainId t)
    (te_oracle t) o (te_address t) (te_decimals t) (te_bridge t) (te_staked t).

Definition set_symbol (s : string) (t : TokenEntity) : TokenEntity :=
  mkToken (te_type t) (te_id t) s (te_name t) (te_chainId t)
    (te_oracle t) (te_oracleId t) (te_address t) (te_decimals t) (te_bridge t)
    (te_staked t).

(** [ChainTokens]: the two indexes of one chain. *)
Record ChainTokens : Type := mkChainTokens {
  byId : gmap string string;
  byAddress : gmap string TokenEntity
}.

(** ** Collaborator data, fields as consumed by the adapters *)

Record Vault : Type := mkVault {
  v_token : string;
  v_tokenAddress : option string;
  v_tokenDecimals : Z;
  v_type : string;
  v_oracle : string;
  v_oracleId : string;
  v_earnedToken : string;
  v_earnedTokenAddress : option string;
  v_earnedTokenDecimals : option Z;
  v_earnContractAddress : string
}.

Record Reward : Type := mkReward {
  r_type : string;
  r_address : option string;
  r_symbol : string;
  r_chainId : option string;
  r_oracleId : option string;
  r_oracle : option string;
  r_decimals : option Z
}.

Record Boost : Type := mkBoost {
  rewards : list Reward
}.

(** Address-book token definition. *)
Record Token : Type := mkAbToken {
  ab_name : string;
  ab_symbol : string;
  ab_address : string;
  ab_decimals : Z;
  ab_oracle : option string;
  ab_oracleId : option string;
  ab_bridge : option string;
  ab_staked : option bool
}.

Record NativeInfo : Type := mkNativeInfo {
  n_symbol : string;
  n_oracleId : string
}.

(** One chain of the address book; [tokens] is the dictionary in the order
    [Object.entries] enumerates it. *)
Record ChainBook : Type := mkChainBook {
  tokens : list (string * Token);
  native_info : NativeInfo
}.

(** Snapshot of what the imported providers return during one refresh. *)
Record Sources : Type := mkSources {
  getVaultsByChain : string → option (list Vault);
  getSingleChainVaults : string → option (list Vault);
  getChainNewBoosts : string → option (list Boost);
  addressBook : string → option ChainBook
}.

(** [abTokens.WNATIVE] *)
Fixpoint lookup_key (k : string) (l : list (string * Token)) : option Token :=
  match l with
  | [] => None
  | (k', t) :: l' => if String.eqb k' k then Some t else lookup_key k l'
  end.

(** ** Queries over the cache *)

Section Queries.
Variable tokensByChain : gmap string ChainTokens.

(** For an address that is a name inherited from [Object.prototype] the
    source returns the inherited function; no record either way. *)
Definition getTokenByAddress (address chainId : string) : option TokenEntity :=
  match tokensByChain !! chainId with
  | Some ct => byAddress ct !! toLowerCase address
  | None => None
  end.

(** For an id that is a name inherited from [Object.prototype] the source
    reads the inherited function from [byId] and throws when it calls
    [toLowerCase] on it; no record either way. *)
Definition getTokenById (id chainId : string) : option TokenEntity :=
  match tokensByChain !! chainId with
  | Some ct =>
      match byId ct !! id with
      | Some address =>
          if truthyS address then getTokenByAddress address chainId else None
      | None => None
      end
  | None => None
  end.

Definition getTokensForChain (chainId : string) : gmap string TokenEntity :=
  match tokensByChain !! chainId with
  | Some ct => byAddress ct
  | None => ∅
  end.


Definition getAllTokensByChain : gmap string ChainTokens := tokensByChain.

Definition isTokenNative (token : TokenEntity) : bool :=
  bool_decide (te_type token = native).

Definition isTokenErc20 (token : TokenEntity) : bool :=
  bool_decide (te_type token = erc20).

Definition getTokenNative (chainId : string) : result TokenEntity :=
  match getTokenById "NATIVE" chainId with
  | Some token => if isTokenNative token then Ok token else Err (NoNativeFound chainId)
  | None => Err (NoNativeFound chainId)
  end.

Definition getTokenWrappedNative (chainId : string) : result TokenEntity :=
  match getTokenById "WNATIVE" chainId with
  | Some token => if isTokenErc20 token then Ok token else Err (NoWnativeFound chainId)
  | None => Err (NoWnativeFound chainId)
  end.

Definition getTokenFees (chainId : string) : result TokenEntity :=
  match getTokenById "FEES" chainId with
  | Some token => if isTokenErc20 token then Ok token else Err (NoFeesFound chainId)
  | None => Err (NoFeesFound chainId)
  end.

Definition areTokensEqual (tokenA tokenB : TokenEntity) : bool :=
  String.eqb (te_chainId tokenA) (te_chainId tokenB)
  && String.eqb (te_address tokenA) (te_address tokenB)
  && bool_decide (te_type tokenA = te_type tokenB).

Definition wrappedToNative (token : TokenEntity) : result TokenEntity :=
  wnative ← getTokenWrappedNative (te_chainId token);
  if areTokensEqual token wnative
  then getTokenNative (te_chainId token)
  else Ok token.

Definition nativeToWrapped (token : TokenEntity) : result TokenEntity :=
  if isTokenNative token
  then getTokenWrappedNative (te_chainId token)
  else Ok token.
End Queries.

(** ** Source adapters and aggregation *)

Section Aggregation.
(** [getAddress] of viem: the checksummed form of a valid address, [None]
    when it throws. *)
Variable getAddress : string → option string.
(** utils/chain. [toApiChain] is [None] when it throws. *)
Variable isApiChain : string → bool.
Variable toApiChain : string → option string.

Variable src : Sources.

(** Body of the [reduce] callback of [fetchVaultTokensForChain]. *)
Definition vaultTokens (chainId : string) (vault : Vault) : list TokenEntity :=
  (match v_tokenAddress vault with
   | Some tokenAddress =>
       if truthyS tokenAddress && negb (String.eqb (v_type vault) "cowcentrated")
       then [mkToken erc20 (v_token vault) (v_token vault) (v_token vault)
               chainId (v_oracle vault) (v_oracleId vault) tokenAddress
               (v_tokenDecimals vault) None None]
       else []
   | None => []
   end)
  ++
  (match v_earnedTokenAddress vault with
   | Some earnedTokenAddress =>
       if truthyS earnedTokenAddress
          && negb (String.eqb earnedTokenAddress "native")
          && negb (String.eqb earnedTokenAddress (v_earnContractAddress vault))
       then [mkToken erc20 (v_earnedToken vault) (v_earnedToken vault)
               (v_earnedToken vault) chainId "tokens" (v_earnedToken vault)
               earnedTokenAddress (or_num (v_earnedTokenDecimals vault) 18)
               None None]
       else []
   | None => []
   end).

Definition fetchVaultTokensForChain (chainId : string) : list TokenEntity :=
  flat_map (vaultTokens chainId) (default [] (getVaultsByChain src chainId)).

(** The condition guarding [tokens.push] in [fetchBoostTokensForChain]. *)
Definition rewardAccepted (vaultAddresses : gset string) (reward : Reward) : bool :=
  String.eqb (r_type reward) "token"
  && truthy (r_address reward)
  && negb (bool_decide (r_address reward = Some "native"))
  && negb (bool_decide (default "" (r_address reward) ∈ vaultAddresses)).

Definition rewardToken (chainId : string) (reward : Reward) : result TokenEntity :=
  tokenChain ← (if truthy (r_chainId reward)
                then match toApiChain (default "" (r_chainId reward)) with
                     | Some c => Ok c
                     | None => Err (UnknownChain (default "" (r_chainId reward)))
                     end
                else Ok chainId);
  Ok (mkToken erc20 (r_symbol reward) (r_symbol reward) (r_symbol reward)
        tokenChain
        (or_default (r_oracle reward) "tokens")
        (or_default (r_oracleId reward) (r_symbol reward))
        (default "" (r_address reward))
        (or_num (r_decimals reward) 18)
        None None).

(** The [for] loop over [boost.rewards]. *)
Fixpoint rewardTokens (chainId : string) (vaultAddresses : gset string)
    (rs : list Reward) : result (list TokenEntity) :=
  match rs with
  | [] => Ok []
  | reward :: rs' =>
      if rewardAccepted vaultAddresses reward
      then token ← rewardToken chainId reward;
           rest ← rewardTokens chainId vaultAddresses rs';
           Ok (token :: rest)
      else rewardTokens chainId vaultAddresses rs'
  end.

(** The [reduce] over the boosts. *)
Fixpoint boostTokens (chainId : string) (vaultAddresses : gset string)
    (boosts : list Boost) : result (list TokenEntity) :=
  match boosts with
  | [] => Ok []
  | boost :: boosts' =>
      here ← rewardTokens chainId vaultAddresses (rewards boost);
      rest ← boostTokens chainId vaultAddresses boosts';
      Ok (here ++ rest)%list
  end.

Definition vaultAddressSet (chainId : string) : gset string :=
  list_to_set (map v_earnContractAddress
                 (default [] (getSingleChainVaults src chainId))).

Definition fetchBoostTokensForChain (chainId : string) : result (list TokenEntity) :=
  boostTokens chainId (vaultAddressSet chainId)
    (default [] (getChainNewBoosts src chainId)).

(** Body of the [reduce] callback of [fetchAddressBookTokensForChain]. *)
Definition abEntryTokens (chainId : string) (nat_ : NativeInfo)
    (entry : string * Token) : list TokenEntity :=
  let '(id, token) := entry in
  if String.eqb (toLowerCase id) (toLowerCase (n_symbol nat_))
  then [mkToken native id (n_symbol nat_) (ab_name token) chainId "tokens"
          (n_oracleId nat_) "native" (ab_decimals token) (Some "native") None]
  else
    mkToken erc20 id (ab_symbol token) (ab_name token) chainId
      (or_default (ab_oracle token) "tokens")
      (or_default (ab_oracleId token) id)
      (ab_address token) (ab_decimals token)
      (if truthy (ab_bridge token) then ab_bridge token else None)
      (match ab_staked token with Some true => Some true | _ => None end)
    ::
    (if String.eqb id "WNATIVE"
     then [mkToken native "NATIVE" (n_symbol nat_) (ab_name token) chainId
             "tokens" (n_oracleId nat_) "native" (ab_decimals token)
             (Some "native") None]
     else []).

Definition fetchAddressBookTokensForChain (chainId : string) : list TokenEntity :=
  match addressBook src chainId with
  | None => []
  | Some chainBook =>
      match tokens chainBook, lookup_key "WNATIVE" (tokens chainBook) with
      | [], _ | _, None => []
      | abTokens, Some _ =>
          flat_map (abEntryTokens chainId (native_info chainBook)) abTokens
      end
  end.

(** [addToken]; the two objects it mutates are passed and returned. *)
Definition addToken (token : TokenEntity)
    (st : gmap string string * gmap string TokenEntity)
  : result (gmap string string * gmap string TokenEntity) :=
  let '(byId, byAddress) := st in
  let addressLower := toLowerCase (te_address token) in
  let byId' :=
    match byId !! te_id token with
    | None =>
        if inherited (te_id token) then byId
        else <[te_id token := addressLower]> byId
    | Some _ => byId
    end in
  match byAddress !! addressLower with
  | None =>
      match te_type token with
      | native => Ok (byId', <[addressLower := token]> byAddress)
      | erc20 =>
          match getAddress (te_address token) with
          | Some checksummed =>
              Ok (byId', <[addressLower := set_address checksummed token]> byAddress)
          | None => Err (InvalidAddress (te_address token))
          end
      end
  | Some existing =>
      if negb (truthy (te_bridge existing)) && truthy (te_bridge token)
      then Ok (byId', <[addressLower := set_bridge (te_bridge token) existing]> byAddress)
      else Ok (byId', byAddress)
  end.

(** [[...].forEach(token => addToken(token, byId, byAddress))] *)
Fixpoint addTokens (l : list TokenEntity)
    (st : gmap string string * gmap string TokenEntity)
  : result (gmap string string * gmap string TokenEntity) :=
  match l with
  | [] => Ok st
  | token :: l' => st' ← addToken token st; addTokens l' st'
  end.

(** One step of the precedence pass over the address-book tokens. *)
Definition overrideToken (token : TokenEntity) (byAddress : gmap string TokenEntity)
  : result (gmap string TokenEntity) :=
  let addressKey := toLowerCase (te_address token) in
  match byAddress !! addressKey with
  | Some stored =>
      Ok (<[addressKey :=
              set_symbol (te_symbol token) (set_oracleId (te_oracleId token) stored)]>
            byAddress)
  | None => Err (UndefinedAccess addressKey)
  end.

Fixpoint overrideTokens (l : list TokenEntity) (byAddress : gmap string TokenEntity)
  : result (gmap string TokenEntity) :=
  match l with
  | [] => Ok byAddress
  | token :: l' => m ← overrideToken token byAddress; overrideTokens l' m
  end.

(** [!byId[k]] is false exactly when the key is present with a non-empty
    address. *)
Definition loaded (k : string) (m : gmap string string) : bool :=
  truthy (m !! k).

(** Lines 280-300 of [fetchTokensForChain]: merge, precedence pass and the
    two presence checks. *)
Definition aggregate (chainId : string)
    (vaultTokens boostTokens abTokens : list TokenEntity) : result ChainTokens :=
  '(byId, byAddress) ← addTokens (vaultTokens ++ boostTokens ++ abTokens)%list (∅, ∅);
  byAddress' ← overrideTokens abTokens byAddress;
  if negb (loaded "NATIVE" byId) then Err (NoNativeLoaded chainId)
  else if negb (loaded "WNATIVE" byId) then Err (NoWnativeLoaded chainId)
  else Ok (mkChainTokens byId byAddress').

Definition fetchTokensForChain (chainId : string) : result ChainTokens :=
  if negb (isApiChain chainId) then Err (InvalidChain chainId)
  else
    boostTokens ← fetchBoostTokensForChain chainId;
    aggregate chainId (fetchVaultTokensForChain chainId) boostTokens
      (fetchAddressBookTokensForChain chainId).

(** State of the service: the cache and the events emitted so far. *)
Record Service : Type := mkService {
  tokensByChain : gmap string ChainTokens;
  emitted : list string
}.

(** [chains.forEach((chainId, i) => { tokensByChain[chainId] = byChain[i]; emit })] *)
Fixpoint publish (chains : list string) (byChain : list ChainTokens)
    (s : Service) : Service :=
  match chains, byChain with
  | chainId :: chains', table :: byChain' =>
      publish chains' byChain'
        (mkService (<[chainId := table]> (tokensByChain s))
           (emitted s ++ ["tokens/" +:+ chainId +:+ "/ready"])%list)
  | _, _ => s
  end.

(** One run of [updateTokens] up to the re-arming in [finally]; [chains] is
    [Object.keys(MULTICHAIN_ENDPOINTS)]. *)
Definition updateTokens (chains : list string) (s : Service) : Service :=
  match mapR fetchTokensForChain chains with
  | Ok byChain =>
      let s' := publish chains byChain s in
      mkService (tokensByChain s') (emitted s' ++ ["tokens/updated"])%list
  | Err _ => s
  end.
End Aggregation.

(** A stand-in for viem's [getAddress] used to run the model on concrete
    data: it accepts exactly the strings [0x] followed by 40 hexadecimal
    digits and, instead of the keccak-based checksum casing, upper-cases the
    hexadecimal letters. *)
Definition is_hex (c : ascii) : bool :=
  let n := N_of_ascii c in
  (((48 <=? n) && (n <=? 57)) || ((65 <=? n) && (n <=? 70))
   || ((97 <=? n) && (n <=? 102)))%N.

Definition upper_hex (c : ascii) : ascii :=
  let n := N_of_ascii c in
  if ((97 <=? n) && (n <=? 102))%N then ascii_of_N (n - 32) else c.

Fixpoint map_string (f : ascii → ascii) (s : string) : string :=
  match s with
  | EmptyString => EmptyString
  | String c r => String (f c) (map_string f r)
  end.

Fixpoint all_string (f : ascii → bool) (s : string) : bool :=
  match s with
  | EmptyString => true
  | String c r => f c && all_string f r
  end.

Definition getAddress_hex (a : string) : option string :=
  match a with
  | String "0" (String "x" digits) =>
      if (String.length digits =? 40)%nat && all_string is_hex digits
      then Some (String "0" (String "x" (map_string upper_hex digits)))
      else None
  | _ => None
  end.

(** ** Vocabulary used to state the properties *)

(** The records of [l] whose lower-cased address is [k], in order. *)
Definition at_address (k : string) (l : list TokenEntity) : list TokenEntity :=
  filter (λ t, toLowerCase (te_address t) = k) l.

(** The records of [l] whose logical id is [i], in order. *)
Definition with_id (i : string) (l : list TokenEntity) : list TokenEntity :=
  filter (λ t, te_id t = i) l.

(** What the first write at an address puts into [byAddress]. *)
Definition stored (getAddress : string → option string) (t : TokenEntity)
  : option TokenEntity :=
  match te_type t with
  | native => Some t
  | erc20 => (λ a, set_address a t) <$> getAddress (te_address t)
  end.

(** The bridge tag of a stored record after the later records [l] of the
    same address went through the merge branch of [addToken]. *)
Definition backfill (b : option string) (l : list TokenEntity) : option string :=
  foldl (λ b t, if negb (truthy b) && truthy (te_bridge t) then te_bridge t else b)
    b l.

(** Two-step resolution of a logical id, read off the two dictionaries. *)
Definition resolves (reg : gmap string ChainTokens) (chainId id : string)
    (t : TokenEntity) : Prop :=
  ∃ table a, reg !! chainId = Some table
    ∧ byId table !! id = Some a ∧ a ≠ ""
    ∧ byAddress table !! toLowerCase a = Some t.


(** What the precedence pass writes over a stored record for the record
    [token] of the address book. *)
Definition overridden (token stored_ : TokenEntity) : TokenEntity :=
  set_symbol (te_symbol token) (set_oracleId (te_oracleId token) stored_).

(** Equality of two records as [areTokensEqual] decides it. *)
Definition same_token (tokenA tokenB : TokenEntity) : Prop :=
  te_chainId tokenA = te_chainId tokenB
  ∧ te_address tokenA = te_address tokenB
  ∧ te_type tokenA = te_type tokenB.

(** The wrapped-native record of the chain of [token], when there is one. *)
Definition wrapped_native_of (reg : gmap string ChainTokens) (token w : TokenEntity)
  : Prop :=
  resolves reg (te_chainId token) "WNATIVE" w ∧ te_type w = erc20.

(** The reading of [wrappedToNative] under which it is total: the native
    record for the wrapped-native record, every other record unchanged. *)
Definition wrappedToNative_total (reg : gmap string ChainTokens)
    (token : TokenEntity) : Prop :=
  (∀ w, wrapped_native_of reg token w → same_token token w →
     ∃ n, resolves reg (te_chainId token) "NATIVE" n ∧ te_type n = native
          ∧ wrappedToNative reg token = Ok n)
  ∧ ((¬ ∃ w, wrapped_native_of reg token w ∧ same_token token w) →
     wrappedToNative reg token = Ok token).





(** ** Concrete data used to run the model *)

Module Scenario.
Definition WETH : string := "0xC02aaA39b223FE8D0A0e5C4F27eAD9083C756Cc2".
Definition USDC : string := "0xA0b86991c6218b36c1d19D4a2e9Eb0cE3606eB48".
Definition MOO : string := "0x5dA90BA82bED0AB701E6762D2bF44E08634d9776".

Definition isApiChain (chainId : string) : bool :=
  bool_decide (chainId ∈ ["eth"; "bsc"]).

Definition toApiChain (chainId : string) : option string :=
  if isApiChain chainId then Some chainId else None.

Definition weth : Token :=
  mkAbToken "Wrapped Ether" "WETH" WETH 18 None None None None.

(** The address book of the scenario of the specification: a wrapped-native
    entry and the native symbol, nothing else. *)
Definition ethBook : ChainBook :=
  mkChainBook [("WNATIVE", weth)] (mkNativeInfo "ETH" "ETH").


Definition onEth {A} (x : A) (chainId : string) : option A :=
  if String.eqb chainId "eth" then Some x else None.

Definition nothing {A} (chainId : string) : option A := None.

(** Address book only. *)
Definition bookOnly : Sources :=
  mkSources nothing nothing nothing (onEth ethBook).


(** A vault whose deposit token is called NATIVE. *)
Definition vaultNamedNative : Vault :=
  mkVault "NATIVE" (Some USDC) 6 "standard" "tokens" "USDC"
    "mooNATIVE" (Some MOO) None MOO.

Definition shadowed : Sources :=
  mkSources (onEth [vaultNamedNative]) (onEth [vaultNamedNative]) nothing
    (onEth ethBook).

(** A boost paying three rewards: an ordinary token, the receipt token of
    a vault of the chain, and the native asset. *)
Definition usdcReward : Reward :=
  mkReward "token" (Some USDC) "USDC" None None None (Some 6).
Definition mooReward : Reward :=
  mkReward "token" (Some MOO) "mooNATIVE" None None None None.
Definition nativeReward : Reward :=
  mkReward "token" (Some "native") "ETH" None None None None.

Definition boosted : Sources :=
  mkSources (onEth [vaultNamedNative]) (onEth [vaultNamedNative])
    (onEth [mkBoost [usdcReward; mooReward; nativeReward]])
    (onEth ethBook).

Definition usdcToken : TokenEntity :=
  mkToken erc20 "USDC" "USDC" "USDC" "eth" "tokens" "USDC" USDC 6 None None.

(** Same logical id and same address as [usdcToken], other casing, with a
    bridge tag. *)
Definition usdcBridged : TokenEntity :=
  mkToken erc20 "USDC" "USD Coin" "USD Coin" "eth" "tokens" "USDC"
    (toLowerCase USDC) 6 (Some "canonical") None.

(** Same logical id, another address. *)
Definition usdcElsewhere : TokenEntity :=
  mkToken erc20 "USDC" "USDC.e" "Bridged USDC" "eth" "tokens" "USDCe"
    MOO 6 None None.

Definition wnativeToken : TokenEntity :=
  mkToken erc20 "WNATIVE" "WETH" "Wrapped Ether" "eth" "tokens" "WNATIVE"
    WETH 18 None None.
Definition nativeToken : TokenEntity :=
  mkToken native "NATIVE" "ETH" "Wrapped Ether" "eth" "tokens" "ETH"
    "native" 18 (Some "native") None.

(** Two records whose logical id is a name every plain object inherits. *)
Definition ctorToken : TokenEntity :=
  mkToken erc20 "constructor" "constructor" "constructor" "eth" "tokens"
    "constructor" USDC 6 None None.
Definition ctorElsewhere : TokenEntity :=
  mkToken erc20 "constructor" "constructor" "constructor" "eth" "tokens"
    "constructor" MOO 18 None None.

Definition emptyService : Service := mkService ∅ [].
End Scenario.

(** ** Facts about the JS helpers *)

Lemma lower_ascii_idem c : lower_ascii (lower_ascii c) = lower_ascii c.
Proof. by destruct c as [[] [] [] [] [] [] [] []]. Qed.

Lemma toLowerCase_idem s : toLowerCase (toLowerCase s) = toLowerCase s.
Proof. induction s as [|c s IH]; simpl; [done|]. by rewrite lower_ascii_idem, IH. Qed.


Lemma truthyS_true s : truthyS s = true ↔ s ≠ "".
Proof.
  unfold truthyS. destruct (String.eqb_spec s ""); simpl; split; congruence.
Qed.

Lemma truthyS_lower s : truthyS (toLowerCase s) = truthyS s.
Proof. by destruct s. Qed.

Lemma truthy_Some (o : option string) :
  truthy o = true ↔ ∃ s, o = Some s ∧ s ≠ "".
Proof.
  destruct o as [s|]; simpl.
  - rewrite truthyS_true. naive_solver.
  - naive_solver.
Qed.

Lemma eqb_false_ne (s1 s2 : string) : String.eqb s1 s2 = false ↔ s1 ≠ s2.
Proof. destruct (String.eqb_spec s1 s2); split; congruence. Qed.

Lemma set_bridge_id t : set_bridge (te_bridge t) t = t.
Proof. by destruct t. Qed.

Lemma set_bridge_set_bridge b1 b2 t :
  set_bridge b2 (set_bridge b1 t) = set_bridge b2 t.
Proof. done. Qed.

Lemma override_twice s1 o1 s2 o2 t :
  set_symbol s2 (set_oracleId o2 (set_symbol s1 (set_oracleId o1 t)))
  = set_symbol s2 (set_oracleId o2 t).
Proof. done. Qed.

(** ** Facts about the result monad *)

Lemma bind_Ok {A B} (r : result A) (f : A → result B) (b : B) :
  r ≫= f = Ok b ↔ ∃ a, r = Ok a ∧ f a = Ok b.
Proof. destruct r; simpl; naive_solver. Qed.

Lemma mapR_Ok {A B} (f : A → result B) l ys :
  mapR f l = Ok ys → Forall2 (λ x y, f x = Ok y) l ys.
Proof.
  revert ys. induction l as [|x l IH]; intros ys; simpl.
  - intros [= <-]. constructor.
  - intros (y & Hy & (ys' & Hys & [= <-])%bind_Ok)%bind_Ok.
    constructor; auto.
Qed.

Lemma mapR_Err {A B} (f : A → result B) l x e :
  x ∈ l → f x = Err e → ∃ e', mapR f l = Err e'.
Proof.
  induction 1 as [x l|x y l Hin IH]; intros Hx; simpl.
  - rewrite Hx. eauto.
  - destruct (f y); simpl; [|eauto].
    destruct (IH Hx) as [e' ->]. eauto.
Qed.

(** The two well-known ids are not inherited names. *)
Lemma inherited_NATIVE : inherited "NATIVE" = false.
Proof. by vm_compute. Qed.

Lemma inherited_WNATIVE : inherited "WNATIVE" = false.
Proof. by vm_compute. Qed.

(** ** The merge loop *)

Section MergeFacts.
Variable getAddress : string → option string.

Implicit Types (bi : gmap string string) (ba : gmap string TokenEntity).
Implicit Types (t : TokenEntity) (l : list TokenEntity).

Lemma addToken_byId t bi ba bi' ba' :
  addToken getAddress t (bi, ba) = Ok (bi', ba') →
  bi' = match bi !! te_id t with
        | None =>
            if inherited (te_id t) then bi
            else <[te_id t := toLowerCase (te_address t)]> bi
        | Some _ => bi
        end.
Proof.
  unfold addToken. intros H.
  repeat case_match; simplify_eq; done.
Qed.

(** The address index after one insertion, key by key. *)
Lemma addToken_byAddress t bi ba bi' ba' k :
  addToken getAddress t (bi, ba) = Ok (bi', ba') →
  ba' !! k =
    if decide (toLowerCase (te_address t) = k) then
      match ba !! k with
      | None => stored getAddress t
      | Some e => Some (set_bridge (backfill (te_bridge e) [t]) e)
      end
    else ba !! k.
Proof.
  unfold addToken, stored, backfill. intros H. simpl.
  case_decide as Hk.
  - subst k. repeat case_match; simplify_eq; simpl;
      rewrite ?lookup_insert_eq, ?set_bridge_id; try done; congruence.
  - repeat case_match; simplify_eq; rewrite ?lookup_insert_ne by done; done.
Qed.

(** Every processed record leaves its address in the address index. *)
Lemma addToken_present t bi ba bi' ba' :
  addToken getAddress t (bi, ba) = Ok (bi', ba') →
  is_Some (ba' !! toLowerCase (te_address t)).
Proof.
  intros H. rewrite (addToken_byAddress _ _ _ _ _ _ H).
  rewrite decide_True by done.
  destruct (ba !! _) eqn:E; [eauto|].
  unfold addToken in H. rewrite E in H. unfold stored.
  repeat case_match; simplify_eq; eauto.
Qed.

Lemma addTokens_app l1 l2 st st' :
  addTokens getAddress (l1 ++ l2) st = Ok st' ↔
  ∃ st1, addTokens getAddress l1 st = Ok st1 ∧ addTokens getAddress l2 st1 = Ok st'.
Proof.
  revert st. induction l1 as [|t l1 IH]; intros st; simpl.
  - naive_solver.
  - rewrite bind_Ok. setoid_rewrite bind_Ok. setoid_rewrite IH. naive_solver.
Qed.

(** First write wins in the id index. *)
Lemma addTokens_byId l bi ba bi' ba' i :
  addTokens getAddress l (bi, ba) = Ok (bi', ba') →
  bi' !! i = match bi !! i with
             | Some a => Some a
             | None =>
                 if inherited i then None
                 else (λ t, toLowerCase (te_address t)) <$> head (with_id i l)
             end.
Proof.
  revert bi ba. induction l as [|t l IH]; intros bi ba; simpl.
  - intros [= <- <-]. destruct (bi !! i); [done|]. by destruct (inherited i).
  - intros ([bi1 ba1] & H1 & H2)%bind_Ok.
    rewrite (IH _ _ H2). apply addToken_byId in H1. subst bi1.
    unfold with_id. rewrite filter_cons. case_decide as Hi.
    + subst i. destruct (bi !! te_id t) eqn:E; [by rewrite E|].
      destruct (inherited (te_id t)) eqn:Ei; [by rewrite E|].
      by rewrite lookup_insert_eq.
    + destruct (bi !! te_id t) eqn:E; [done|].
      destruct (inherited (te_id t)) eqn:Ei; [done|].
      by rewrite lookup_insert_ne.
Qed.

(** The address index after the loop: the first record of an address is
    stored, later ones can only fill in a missing bridge tag. *)
Lemma addTokens_byAddress l bi ba bi' ba' k :
  addTokens getAddress l (bi, ba) = Ok (bi', ba') →
  ba' !! k =
    match ba !! k with
    | Some e => Some (set_bridge (backfill (te_bridge e) (at_address k l)) e)
    | None =>
        match at_address k l with
        | [] => None
        | first :: later =>
            s ← stored getAddress first;
            Some (set_bridge (backfill (te_bridge s) later) s)
        end
    end.
Proof.
  revert bi ba. induction l as [|t l IH]; intros bi ba; simpl.
  - intros [= <- <-]. destruct (ba !! k) as [e|]; [|done].
    by rewrite set_bridge_id.
  - intros ([bi1 ba1] & H1 & H2)%bind_Ok.
    rewrite (IH _ _ H2). rewrite (addToken_byAddress _ _ _ _ _ k H1).
    unfold at_address. rewrite filter_cons.
    case_decide as Hk; [|done].
    destruct (ba !! k) as [e|] eqn:E; simpl.
    + by destruct (negb (truthy (te_bridge e)) && truthy (te_bridge t)).
    + destruct (addToken_present _ _ _ _ _ H1) as [e1 He1].
      rewrite Hk, (addToken_byAddress _ _ _ _ _ k H1), decide_True, E in He1 by done.
      by rewrite He1.
Qed.

Lemma addToken_mono t bi ba bi' ba' k :
  addToken getAddress t (bi, ba) = Ok (bi', ba') →
  is_Some (ba !! k) → is_Some (ba' !! k).
Proof.
  intros H [e He]. rewrite (addToken_byAddress _ _ _ _ _ _ H), He.
  case_decide; eauto.
Qed.

Lemma addTokens_mono l bi ba bi' ba' k :
  addTokens getAddress l (bi, ba) = Ok (bi', ba') →
  is_Some (ba !! k) → is_Some (ba' !! k).
Proof.
  revert bi ba. induction l as [|t l IH]; intros bi ba; simpl.
  - by intros [= <- <-].
  - intros ([bi1 ba1] & H1 & H2)%bind_Ok Hk.
    eapply IH; [done|]. by eapply addToken_mono.
Qed.

Lemma addTokens_present l bi ba bi' ba' t :
  addTokens getAddress l (bi, ba) = Ok (bi', ba') →
  t ∈ l → is_Some (ba' !! toLowerCase (te_address t)).
Proof.
  revert bi ba. induction l as [|t' l IH]; intros bi ba; simpl.
  - intros _ Hin. by apply elem_of_nil in Hin.
  - intros ([bi1 ba1] & H1 & H2)%bind_Ok [->|Hin]%elem_of_cons.
    + eapply addTokens_mono; [done|]. by eapply addToken_present.
    + by eapply IH.
Qed.



End MergeFacts.

(** ** The precedence pass and the aggregation as a whole *)

Section AggregateFacts.
Variable getAddress : string → option string.

Implicit Types (bi : gmap string string) (ba : gmap string TokenEntity).
Implicit Types (t : TokenEntity) (l v b a : list TokenEntity).

Lemma overrideToken_lookup t ba ba' k :
  overrideToken t ba = Ok ba' →
  ba' !! k = if decide (toLowerCase (te_address t) = k)
             then overridden t <$> ba !! k
             else ba !! k.
Proof.
  unfold overrideToken. intros H.
  destruct (ba !! toLowerCase (te_address t)) as [e|] eqn:E; [|done].
  injection H as <-. case_decide as Hk.
  - subst k. by rewrite lookup_insert_eq, E.
  - by rewrite lookup_insert_ne.
Qed.

(** The last address-book record of an address decides symbol and oracle
    id; nothing else changes. *)
Lemma overrideTokens_lookup a ba ba' k :
  overrideTokens a ba = Ok ba' →
  ba' !! k = match last (at_address k a) with
             | Some token => overridden token <$> ba !! k
             | None => ba !! k
             end.
Proof.
  revert ba. induction a as [|t a IH]; intros ba; simpl.
  - by intros [= <-].
  - intros (ba1 & H1 & H2)%bind_Ok.
    rewrite (IH _ H2), (overrideToken_lookup _ _ _ k H1).
    unfold at_address. rewrite filter_cons.
    case_decide as Hk; [|done].
    rewrite last_cons.
    destruct (last (filter _ a)) as [token|]; [|done].
    by destruct (ba !! k).
Qed.

(** The pass cannot hit a missing entry after the merge loop. *)
Lemma overrideTokens_total a ba :
  (∀ t, t ∈ a → is_Some (ba !! toLowerCase (te_address t))) →
  ∃ ba', overrideTokens a ba = Ok ba'.
Proof.
  revert ba. induction a as [|t a IH]; intros ba Hin; simpl; [eauto|].
  destruct (Hin t) as [e He]; [left|].
  unfold overrideToken. rewrite He. simpl.
  apply IH. intros t' Ht'.
  destruct (decide (toLowerCase (te_address t) = toLowerCase (te_address t')))
    as [<-|Hne].
  - rewrite lookup_insert_eq. eauto.
  - rewrite lookup_insert_ne by done. apply Hin. by right.
Qed.

Lemma aggregate_inv chainId v b a table :
  aggregate getAddress chainId v b a = Ok table →
  ∃ ba, addTokens getAddress (v ++ b ++ a) (∅, ∅) = Ok (byId table, ba)
      ∧ overrideTokens a ba = Ok (byAddress table)
      ∧ loaded "NATIVE" (byId table) = true
      ∧ loaded "WNATIVE" (byId table) = true.
Proof.
  unfold aggregate. intros ([bi ba] & H1 & (ba' & H2 & H3)%bind_Ok)%bind_Ok.
  destruct (loaded "NATIVE" bi) eqn:En; simpl in H3; [|done].
  destruct (loaded "WNATIVE" bi) eqn:Ew; simpl in H3; [|done].
  injection H3 as <-. simpl. eauto.
Qed.

(** When the aggregation fails, it is for one of three reasons. *)
Lemma aggregate_Err chainId v b a e :
  aggregate getAddress chainId v b a = Err e →
  (∃ x, e = InvalidAddress x) ∨ e = NoNativeLoaded chainId
  ∨ e = NoWnativeLoaded chainId.
Proof.
  unfold aggregate.
  destruct (addTokens getAddress (v ++ b ++ a) (∅, ∅)) as [[bi ba]|e'] eqn:E; simpl.
  - destruct (overrideTokens_total a ba) as [ba' ->]; simpl.
    { intros t Ht. eapply addTokens_present; [done|].
      rewrite !elem_of_app. auto. }
    destruct (loaded "NATIVE" bi); simpl; [|naive_solver].
    destruct (loaded "WNATIVE" bi); simpl; [done|naive_solver].
  - intros [= <-]. left. clear -E.
    revert E. generalize (∅ : gmap string string, ∅ : gmap string TokenEntity).
    induction (v ++ b ++ a)%list as [|t l IH]; intros st; simpl; [done|].
    destruct (addToken getAddress t st) as [st1|e1] eqn:E1; simpl; [by apply IH|].
    intros [= <-]. unfold addToken in E1.
    repeat case_match; simplify_eq; eauto.
Qed.

Lemma aggregate_byId chainId v b a table i :
  aggregate getAddress chainId v b a = Ok table →
  byId table !! i
  = if inherited i then None
    else (λ t, toLowerCase (te_address t)) <$> head (with_id i (v ++ b ++ a)).
Proof.
  intros (ba & H1 & _)%aggregate_inv.
  by rewrite (addTokens_byId _ _ _ _ _ _ i H1), lookup_empty.
Qed.

Lemma aggregate_byAddress chainId v b a table k :
  aggregate getAddress chainId v b a = Ok table →
  byAddress table !! k =
    match at_address k (v ++ b ++ a) with
    | [] => None
    | first :: later =>
        s ← stored getAddress first;
        let merged := set_bridge (backfill (te_bridge s) later) s in
        Some (match last (at_address k a) with
              | Some token => overridden token merged
              | None => merged
              end)
    end.
Proof.
  intros (ba & H1 & H2 & _)%aggregate_inv.
  rewrite (overrideTokens_lookup _ _ _ k H2).
  rewrite (addTokens_byAddress _ _ _ _ _ _ k H1), lookup_empty.
  destruct (at_address k (v ++ b ++ a)) as [|first later] eqn:E.
  - by destruct (last _).
  - destruct (stored getAddress first) as [s|]; simpl; by destruct (last _).
Qed.


End AggregateFacts.

(** ** The source adapters *)

Lemma elem_of_flat_map {A B} (f : A → list B) (l : list A) (y : B) :
  y ∈ flat_map f l ↔ ∃ x, x ∈ l ∧ y ∈ f x.
Proof.
  induction l as [|x l IH]; simpl.
  - split; [intros H; by apply elem_of_nil in H|].
    intros (x & H & _). by apply elem_of_nil in H.
  - rewrite elem_of_app, IH. split.
    + intros [H|(x' & H1 & H2)]; [exists x; split; [left|done]|].
      exists x'. split; [by right|done].
    + intros (x' & [->|H1]%elem_of_cons & H2); [by left|].
      right. eauto.
Qed.

Section AdapterFacts.
Variable src : Sources.

Lemma vaultTokens_elem chainId vault t :
  t ∈ vaultTokens chainId vault →
  te_type t = erc20 ∧ te_address t ≠ "" ∧ te_bridge t = None
  ∧ (te_id t = v_token vault ∨ te_id t = v_earnedToken vault).
Proof.
  unfold vaultTokens. rewrite elem_of_app.
  intros [H|H].
  - destruct (v_tokenAddress vault) as [x|]; [|by apply elem_of_nil in H].
    destruct (truthyS x) eqn:Ex; simpl in H; [|by apply elem_of_nil in H].
    destruct (negb _); [|by apply elem_of_nil in H].
    apply list_elem_of_singleton in H as ->. simpl.
    apply truthyS_true in Ex. auto.
  - destruct (v_earnedTokenAddress vault) as [x|]; [|by apply elem_of_nil in H].
    destruct (truthyS x) eqn:Ex; simpl in H; [|by apply elem_of_nil in H].
    destruct (negb _ && negb _); [|by apply elem_of_nil in H].
    apply list_elem_of_singleton in H as ->. simpl.
    apply truthyS_true in Ex. auto.
Qed.

Lemma fetchVaultTokensForChain_elem chainId t :
  t ∈ fetchVaultTokensForChain src chainId →
  te_type t = erc20 ∧ te_address t ≠ "" ∧ te_bridge t = None.
Proof.
  unfold fetchVaultTokensForChain.
  intros (vault & _ & H)%elem_of_flat_map.
  apply vaultTokens_elem in H as (? & ? & ? & _). done.
Qed.

Variable toApiChain : string → option string.

Lemma rewardAccepted_true vaultAddresses reward :
  rewardAccepted vaultAddresses reward = true ↔
  r_type reward = "token"
  ∧ ∃ address, r_address reward = Some address ∧ address ≠ ""
      ∧ address ≠ "native" ∧ address ∉ vaultAddresses.
Proof.
  unfold rewardAccepted.
  rewrite !andb_true_iff, !negb_true_iff, !bool_decide_eq_false,
    String.eqb_eq, truthy_Some.
  split.
  - intros [[[Ht (x & Hx & Hne)] Hn] Hv]. split; [done|].
    exists x. rewrite Hx in Hn, Hv. simpl in Hv.
    repeat split; try done. congruence.
  - intros [Ht (x & Hx & Hne & Hn & Hv)]. rewrite Hx. simpl.
    repeat split; eauto. congruence.
Qed.

Lemma rewardToken_Ok chainId reward t :
  rewardToken toApiChain chainId reward = Ok t →
  te_type t = erc20 ∧ te_id t = r_symbol reward
  ∧ te_address t = default "" (r_address reward) ∧ te_bridge t = None.
Proof.
  unfold rewardToken. intros (tokenChain & _ & [= <-])%bind_Ok. done.
Qed.

Lemma rewardTokens_elem chainId vaultAddresses rs l t :
  rewardTokens toApiChain chainId vaultAddresses rs = Ok l →
  t ∈ l →
  ∃ reward, reward ∈ rs ∧ rewardAccepted vaultAddresses reward = true
          ∧ rewardToken toApiChain chainId reward = Ok t.
Proof.
  revert l. induction rs as [|reward rs IH]; intros l; simpl.
  - intros [= <-] Hin. by apply elem_of_nil in Hin.
  - destruct (rewardAccepted vaultAddresses reward) eqn:Eacc.
    + intros (token & Htok & (rest & Hrest & [= <-])%bind_Ok)%bind_Ok.
      intros [->|Hin]%elem_of_cons.
      * exists reward. split; [left|done].
      * destruct (IH _ Hrest Hin) as (r & ? & ? & ?).
        exists r. split; [by right|done].
    + intros Hrs Hin. destruct (IH _ Hrs Hin) as (r & ? & ? & ?).
      exists r. split; [by right|done].
Qed.

Lemma boostTokens_elem chainId vaultAddresses boosts l t :
  boostTokens toApiChain chainId vaultAddresses boosts = Ok l →
  t ∈ l →
  ∃ boost reward, boost ∈ boosts ∧ reward ∈ rewards boost
    ∧ rewardAccepted vaultAddresses reward = true
    ∧ rewardToken toApiChain chainId reward = Ok t.
Proof.
  revert l. induction boosts as [|boost boosts IH]; intros l; simpl.
  - intros [= <-] Hin. by apply elem_of_nil in Hin.
  - intros (here & Hhere & (rest & Hrest & [= <-])%bind_Ok)%bind_Ok.
    intros [Hin|Hin]%elem_of_app.
    + destruct (rewardTokens_elem _ _ _ _ _ Hhere Hin) as (r & ? & ? & ?).
      exists boost, r. split; [left|done].
    + destruct (IH _ Hrest Hin) as (b' & r & ? & ? & ? & ?).
      exists b', r. split; [by right|done].
Qed.

Lemma fetchBoostTokensForChain_elem chainId l t :
  fetchBoostTokensForChain toApiChain src chainId = Ok l →
  t ∈ l →
  te_type t = erc20 ∧ te_address t ≠ "" ∧ te_address t ≠ "native"
  ∧ te_bridge t = None.
Proof.
  intros H Hin.
  destruct (boostTokens_elem _ _ _ _ _ H Hin) as (boost & r & _ & _ & Hacc & Htok).
  apply rewardAccepted_true in Hacc as (_ & x & Hx & ? & ? & _).
  apply rewardToken_Ok in Htok as (? & _ & Ha & ?).
  rewrite Hx in Ha. simpl in Ha. rewrite Ha. done.
Qed.

(** Records of the address-book adapter, entry by entry. *)
Lemma abEntryTokens_elem chainId nat_ id token t :
  t ∈ abEntryTokens chainId nat_ (id, token) →
  (te_type t = native ∧ te_address t = "native"
   ∧ (te_id t = id ∧ toLowerCase id = toLowerCase (n_symbol nat_)
      ∨ te_id t = "NATIVE" ∧ id = "WNATIVE"))
  ∨ (te_type t = erc20 ∧ te_id t = id ∧ te_address t = ab_address token
     ∧ toLowerCase id ≠ toLowerCase (n_symbol nat_)).
Proof.
  unfold abEntryTokens.
  destruct (String.eqb_spec (toLowerCase id) (toLowerCase (n_symbol nat_)))
    as [Heq|Hne].
  - intros ->%list_elem_of_singleton. simpl. left. auto.
  - intros [->|H]%elem_of_cons; [simpl; right; auto|].
    destruct (String.eqb_spec id "WNATIVE") as [->|?];
      [|by apply elem_of_nil in H].
    apply list_elem_of_singleton in H as ->. simpl. left. auto.
Qed.

Lemma fetchAddressBookTokensForChain_elem chainId t :
  t ∈ fetchAddressBookTokensForChain src chainId →
  ∃ chainBook id token,
    addressBook src chainId = Some chainBook
    ∧ (id, token) ∈ tokens chainBook
    ∧ t ∈ abEntryTokens chainId (native_info chainBook) (id, token).
Proof.
  unfold fetchAddressBookTokensForChain.
  destruct (addressBook src chainId) as [chainBook|];
    [|intros H; by apply elem_of_nil in H].
  destruct (tokens chainBook) as [|entry entries] eqn:E;
    [intros H; by apply elem_of_nil in H|].
  destruct (lookup_key _ _); [|intros H; by apply elem_of_nil in H].
  intros ([id token] & Hin & Ht)%elem_of_flat_map.
  exists chainBook, id, token. by rewrite E.
Qed.

Lemma fetchAddressBookTokensForChain_native chainId t :
  t ∈ fetchAddressBookTokensForChain src chainId →
  te_type t = native → te_address t = "native".
Proof.
  intros (chainBook & id & token & _ & _ & H)%fetchAddressBookTokensForChain_elem.
  apply abEntryTokens_elem in H as [(_ & ? & _)|(? & _)]; [done|congruence].
Qed.
End AdapterFacts.

(** ** The getters *)

Section QueryFacts.
Variable reg : gmap string ChainTokens.

Lemma getTokenById_resolves id chainId t :
  getTokenById reg id chainId = Some t ↔ resolves reg chainId id t.
Proof.
  unfold getTokenById, getTokenByAddress, resolves. split.
  - destruct (reg !! chainId) as [table|] eqn:Er; [|done].
    destruct (byId table !! id) as [a|] eqn:Ea; [|done].
    destruct (truthyS a) eqn:Et; [|done].
    intros H. exists table, a. by apply truthyS_true in Et.
  - intros (table & a & -> & -> & Ha%truthyS_true & Ht). by rewrite Ha.
Qed.


Lemma getTokenNative_Ok chainId t :
  getTokenNative reg chainId = Ok t ↔
  resolves reg chainId "NATIVE" t ∧ te_type t = native.
Proof.
  unfold getTokenNative, isTokenNative.
  rewrite <- getTokenById_resolves.
  destruct (getTokenById reg "NATIVE" chainId) as [t'|]; [|naive_solver].
  case_bool_decide; naive_solver.
Qed.

Lemma getTokenNative_Err chainId e :
  getTokenNative reg chainId = Err e → e = NoNativeFound chainId.
Proof.
  unfold getTokenNative.
  destruct (getTokenById reg "NATIVE" chainId) as [t'|]; [|congruence].
  destruct (isTokenNative t'); congruence.
Qed.

Lemma getTokenWrappedNative_Ok chainId t :
  getTokenWrappedNative reg chainId = Ok t ↔
  resolves reg chainId "WNATIVE" t ∧ te_type t = erc20.
Proof.
  unfold getTokenWrappedNative, isTokenErc20.
  rewrite <- getTokenById_resolves.
  destruct (getTokenById reg "WNATIVE" chainId) as [t'|]; [|naive_solver].
  case_bool_decide; naive_solver.
Qed.

Lemma getTokenWrappedNative_Err chainId e :
  getTokenWrappedNative reg chainId = Err e → e = NoWnativeFound chainId.
Proof.
  unfold getTokenWrappedNative.
  destruct (getTokenById reg "WNATIVE" chainId) as [t'|]; [|congruence].
  destruct (isTokenErc20 t'); congruence.
Qed.

Lemma getTokenFees_Ok chainId t :
  getTokenFees reg chainId = Ok t ↔
  resolves reg chainId "FEES" t ∧ te_type t = erc20.
Proof.
  unfold getTokenFees, isTokenErc20.
  rewrite <- getTokenById_resolves.
  destruct (getTokenById reg "FEES" chainId) as [t'|]; [|naive_solver].
  case_bool_decide; naive_solver.
Qed.

Lemma getTokenFees_Err chainId e :
  getTokenFees reg chainId = Err e → e = NoFeesFound chainId.
Proof.
  unfold getTokenFees.
  destruct (getTokenById reg "FEES" chainId) as [t'|]; [|congruence].
  destruct (isTokenErc20 t'); congruence.
Qed.

Lemma resolves_unpublished chainId id t :
  reg !! chainId = None → ¬ resolves reg chainId id t.
Proof. intros Hn (table & a & Hr & _). congruence. Qed.
End QueryFacts.

Lemma result_cases {A} (r : result A) : (∃ a, r = Ok a) ∨ (∃ e, r = Err e).
Proof. destruct r; eauto. Qed.

Lemma areTokensEqual_true tokenA tokenB :
  areTokensEqual tokenA tokenB = true ↔ same_token tokenA tokenB.
Proof.
  unfold areTokensEqual, same_token.
  rewrite !andb_true_iff, !String.eqb_eq, bool_decide_eq_true. tauto.
Qed.

Lemma areTokensEqual_false tokenA tokenB :
  areTokensEqual tokenA tokenB = false ↔ ¬ same_token tokenA tokenB.
Proof.
  rewrite <- areTokensEqual_true. destruct (areTokensEqual tokenA tokenB); split;
    congruence.
Qed.

(** ** One chain, end to end *)

Section FetchFacts.
Variable getAddress : string → option string.
Variable isApiChain : string → bool.
Variable toApiChain : string → option string.
Variable src : Sources.

Lemma fetchTokensForChain_inv chainId table :
  fetchTokensForChain getAddress isApiChain toApiChain src chainId = Ok table →
  isApiChain chainId = true
  ∧ ∃ boostTokens,
      fetchBoostTokensForChain toApiChain src chainId = Ok boostTokens
      ∧ aggregate getAddress chainId (fetchVaultTokensForChain src chainId)
          boostTokens (fetchAddressBookTokensForChain src chainId) = Ok table.
Proof.
  unfold fetchTokensForChain.
  destruct (isApiChain chainId); simpl; [|done].
  intros (boostTokens & ? & ?)%bind_Ok. eauto.
Qed.

(** A record behind an id of the id index is one of the merged records. *)
Lemma aggregate_byId_elem chainId v b a table i x :
  aggregate getAddress chainId v b a = Ok table →
  byId table !! i = Some x →
  ∃ t, t ∈ (v ++ b ++ a)%list ∧ te_id t = i ∧ x = toLowerCase (te_address t).
Proof.
  intros H. rewrite (aggregate_byId _ _ _ _ _ _ i H).
  destruct (inherited i); [done|].
  destruct (with_id i (v ++ b ++ a)) as [|t l] eqn:E; simpl; [done|].
  intros [= <-]. exists t.
  assert (t ∈ with_id i (v ++ b ++ a)) as Hin by (rewrite E; left).
  unfold with_id in Hin. apply list_elem_of_filter in Hin as [? ?]. done.
Qed.





(** Which variant sits at which address. *)
Lemma merged_variant chainId boostTokens t :
  fetchBoostTokensForChain toApiChain src chainId = Ok boostTokens →
  t ∈ (fetchVaultTokensForChain src chainId ++ boostTokens
       ++ fetchAddressBookTokensForChain src chainId)%list →
  te_address t ≠ ""
  ∨ te_type t = erc20 ∧ te_address t = "".
Proof.
  intros Hboost Hin.
  rewrite !elem_of_app in Hin. destruct Hin as [Hin|[Hin|Hin]].
  - apply fetchVaultTokensForChain_elem in Hin as (_ & ? & _). by left.
  - apply (fetchBoostTokensForChain_elem _ _ _ _ _ Hboost) in Hin
      as (_ & ? & _). by left.
  - destruct (te_type t) eqn:Et.
    + apply fetchAddressBookTokensForChain_native in Hin; [|done].
      left. by rewrite Hin.
    + destruct (decide (te_address t = "")); auto.
Qed.

Lemma merged_native chainId boostTokens t :
  fetchBoostTokensForChain toApiChain src chainId = Ok boostTokens →
  t ∈ (fetchVaultTokensForChain src chainId ++ boostTokens
       ++ fetchAddressBookTokensForChain src chainId)%list →
  te_type t = native → te_address t = "native".
Proof.
  intros Hboost Hin Ht.
  rewrite !elem_of_app in Hin. destruct Hin as [Hin|[Hin|Hin]].
  - apply fetchVaultTokensForChain_elem in Hin. destruct Hin. congruence.
  - apply (fetchBoostTokensForChain_elem _ _ _ _ _ Hboost) in Hin.
    destruct Hin. congruence.
  - by apply fetchAddressBookTokensForChain_native in Hin.
Qed.

End FetchFacts.


(** ** Publication *)

Lemma mapR_length {A B} (f : A → result B) l ys :
  mapR f l = Ok ys → List.length ys = List.length l.
Proof. intros H%mapR_Ok. symmetry. by eapply Forall2_length. Qed.

Lemma publish_other chains byChain s chainId :
  chainId ∉ chains →
  tokensByChain (publish chains byChain s) !! chainId = tokensByChain s !! chainId.
Proof.
  revert byChain s. induction chains as [|c chains IH]; intros byChain s Hnot;
    [done|].
  destruct byChain as [|table byChain]; [done|]. simpl.
  apply not_elem_of_cons in Hnot as [Hne Hnot].
  rewrite IH by done. simpl. by rewrite lookup_insert_ne.
Qed.

Lemma publish_lookup chains byChain s i chainId table :
  NoDup chains →
  chains !! i = Some chainId →
  byChain !! i = Some table →
  tokensByChain (publish chains byChain s) !! chainId = Some table.
Proof.
  revert byChain s i. induction chains as [|c chains IH];
    intros byChain s i Hnd Hc Ht; [done|].
  destruct byChain as [|table0 byChain]; [done|].
  apply NoDup_cons in Hnd as [Hnot Hnd]. simpl.
  destruct i as [|i]; simpl in Hc, Ht.
  - injection Hc as ->. injection Ht as ->.
    rewrite publish_other by done. simpl. apply lookup_insert_eq.
  - by eapply IH.
Qed.

(** A cycle in which every chain succeeds publishes the table of every
    chain. *)
Lemma updateTokens_publishes getAddress isApiChain toApiChain src chains s
    chainId :
  NoDup chains →
  chainId ∈ chains →
  is_ok (mapR (fetchTokensForChain getAddress isApiChain toApiChain src) chains)
    = true →
  ∃ table,
    fetchTokensForChain getAddress isApiChain toApiChain src chainId = Ok table
    ∧ tokensByChain
        (updateTokens getAddress isApiChain toApiChain src chains s) !! chainId
      = Some table.
Proof.
  intros Hnd Hin Hok. unfold updateTokens.
  destruct (mapR _ chains) as [byChain|] eqn:E; [|done].
  apply list_elem_of_lookup in Hin as [i Hi].
  pose proof (mapR_Ok _ _ _ E) as Hall.
  destruct (Forall2_lookup_l _ _ _ _ _ Hall Hi) as (table & Ht & Hf).
  exists table. split; [done|]. simpl. by eapply publish_lookup.
Qed.

(** ** More on the merge and the aggregation *)

Lemma backfill_truthy b l : truthy b = true → backfill b l = b.
Proof.
  intros Hb. unfold backfill. induction l as [|t l IH]; simpl; [done|].
  by rewrite Hb.
Qed.

Lemma upper_hex_lower c : lower_ascii (upper_hex c) = lower_ascii c.
Proof. by destruct c as [[] [] [] [] [] [] [] []]. Qed.

Lemma getAddress_hex_lower x r :
  getAddress_hex x = Some r → toLowerCase r = toLowerCase x.
Proof.
  unfold getAddress_hex.
  destruct x as [|c0 [|c1 digits]]; try done.
  - by repeat case_match.
  - repeat case_match; try done. intros [= <-]. simpl. f_equal. f_equal.
    clear. induction digits as [|c d IH]; simpl; [done|].
    by rewrite upper_hex_lower, IH.
Qed.

Section AggregateMore.
Variable getAddress : string → option string.

Implicit Types (bi : gmap string string) (ba : gmap string TokenEntity).
Implicit Types (t : TokenEntity) (l v b a : list TokenEntity).

Lemma stored_fields t s :
  stored getAddress t = Some s →
  te_type s = te_type t ∧ te_bridge s = te_bridge t
  ∧ (te_type t = native → s = t)
  ∧ (te_type t = erc20 → getAddress (te_address t) = Some (te_address s)).
Proof.
  unfold stored. destruct (te_type t) eqn:Et.
  - intros [= <-]. split_and!; done.
  - destruct (getAddress (te_address t)) as [r|]; simpl; [|done].
    intros [= <-]. split_and!; done.
Qed.

(** Where an entry of the address index comes from. *)
Lemma aggregate_entry_origin chainId v b a table k e :
  aggregate getAddress chainId v b a = Ok table →
  byAddress table !! k = Some e →
  ∃ first later s,
    at_address k (v ++ b ++ a) = first :: later
    ∧ stored getAddress first = Some s
    ∧ e = match last (at_address k a) with
          | Some token =>
              overridden token (set_bridge (backfill (te_bridge s) later) s)
          | None => set_bridge (backfill (te_bridge s) later) s
          end.
Proof.
  intros H. rewrite (aggregate_byAddress _ _ _ _ _ _ k H).
  destruct (at_address k (v ++ b ++ a)) as [|first later]; [done|].
  destruct (stored getAddress first) as [s|] eqn:Es; simpl; [|done].
  intros [= <-]. by exists first, later, s.
Qed.

Lemma at_address_head k l first later :
  at_address k l = first :: later →
  first ∈ l ∧ toLowerCase (te_address first) = k.
Proof.
  intros E. assert (first ∈ at_address k l) as Hin by (rewrite E; left).
  unfold at_address in Hin. by apply list_elem_of_filter in Hin as [? ?].
Qed.

Lemma at_address_nil k l :
  at_address k l = [] ↔ ∀ t, t ∈ l → toLowerCase (te_address t) ≠ k.
Proof.
  unfold at_address. split.
  - intros E t Hin Hk.
    assert (t ∈ filter (λ t, toLowerCase (te_address t) = k) l) as Hf
      by by apply list_elem_of_filter.
    rewrite E in Hf. by apply elem_of_nil in Hf.
  - intros Hno. induction l as [|t l IH]; [done|].
    rewrite filter_cons, decide_False; [|apply Hno; left].
    apply IH. intros t' Ht'. apply Hno. by right.
Qed.

Lemma with_id_head i l t later :
  with_id i l = t :: later → t ∈ l ∧ te_id t = i.
Proof.
  intros E. assert (t ∈ with_id i l) as Hin by (rewrite E; left).
  unfold with_id in Hin. by apply list_elem_of_filter in Hin as [? ?].
Qed.

Lemma with_id_elem i l t :
  t ∈ l → te_id t = i → ∃ t' later, with_id i l = t' :: later.
Proof.
  intros Hin Hi.
  assert (t ∈ with_id i l) as Hf by by apply list_elem_of_filter.
  destruct (with_id i l) as [|t' later]; [by apply elem_of_nil in Hf|eauto].
Qed.

(** The loop goes through when the first record of every address that is
    still free can be stored. *)
Lemma addTokens_total l bi ba :
  (∀ k first later, ba !! k = None → at_address k l = first :: later →
     is_Some (stored getAddress first)) →
  ∃ st', addTokens getAddress l (bi, ba) = Ok st'.
Proof.
  revert bi ba. induction l as [|t l IH]; intros bi ba Hfirst; [by eexists|].
  cbn [addTokens].
  assert (∃ bi1 ba1, addToken getAddress t (bi, ba) = Ok (bi1, ba1))
    as (bi1 & ba1 & H1).
  { unfold addToken.
    destruct (ba !! toLowerCase (te_address t)) as [e|] eqn:E.
    - destruct (negb _ && _); eauto.
    - destruct (Hfirst (toLowerCase (te_address t)) t
                  (at_address (toLowerCase (te_address t)) l) E) as [s Hs].
      { unfold at_address. by rewrite filter_cons, decide_True. }
      unfold stored in Hs. destruct (te_type t); [eauto|].
      destruct (getAddress (te_address t)); [eauto|done]. }
  rewrite H1. simpl. apply IH. intros k first later Hk Hat.
  destruct (decide (toLowerCase (te_address t) = k)) as [Heq|Hne].
  - destruct (addToken_present _ _ _ _ _ _ H1) as [e He]. congruence.
  - apply (Hfirst k first later).
    + by rewrite <- Hk, (addToken_byAddress _ _ _ _ _ _ k H1), decide_False.
    + unfold at_address. by rewrite filter_cons, decide_False.
Qed.
Lemma addTokens_Err l st e :
  addTokens getAddress l st = Err e →
  ∃ t, t ∈ l ∧ te_type t = erc20 ∧ getAddress (te_address t) = None
       ∧ e = InvalidAddress (te_address t).
Proof.
  revert st. induction l as [|t l IH]; intros st; [done|].
  cbn [addTokens].
  destruct (addToken getAddress t st) as [st1|e1] eqn:E1; simpl.
  - intros (t' & ? & ?)%IH. exists t'. split; [by right|done].
  - intros [= <-]. exists t. split; [left|].
    unfold addToken in E1. destruct st as [bi ba].
    destruct (ba !! toLowerCase (te_address t)).
    + by destruct (negb _ && _).
    + destruct (te_type t); [done|].
      destruct (getAddress (te_address t)) eqn:Eg; [done|].
      by injection E1 as <-.
Qed.

(** Failures of the aggregation, with their cause. *)
Lemma aggregate_Err_cause chainId v b a e :
  aggregate getAddress chainId v b a = Err e →
  (∃ x, e = InvalidAddress x ∧ getAddress x = None)
  ∨ e = NoNativeLoaded chainId ∨ e = NoWnativeLoaded chainId.
Proof.
  unfold aggregate.
  destruct (addTokens getAddress (v ++ b ++ a) (∅, ∅)) as [[bi ba]|e'] eqn:E; simpl.
  - destruct (overrideTokens_total a ba) as [ba' ->]; simpl.
    { intros t Ht. eapply addTokens_present; [done|].
      rewrite !elem_of_app. auto. }
    destruct (loaded "NATIVE" bi); simpl; [|intros [= <-]; auto].
    destruct (loaded "WNATIVE" bi); simpl; [done|intros [= <-]; auto].
  - intros [= <-]. left.
    apply addTokens_Err in E as (t & _ & _ & ? & ->). eauto.
Qed.

(** Sufficient for the aggregation to go through. *)
Lemma aggregate_ok_intro chainId v b a :
  (∀ k first later,
     at_address k (v ++ b ++ a) = first :: later →
     is_Some (stored getAddress first)) →
  (∃ t later, with_id "NATIVE" (v ++ b ++ a) = t :: later ∧ te_address t ≠ "") →
  (∃ t later, with_id "WNATIVE" (v ++ b ++ a) = t :: later ∧ te_address t ≠ "") →
  ∃ table, aggregate getAddress chainId v b a = Ok table.
Proof.
  intros Hfirst (tn & ln & Hn & Hne) (tw & lw & Hw & Hwe).
  destruct (addTokens_total (v ++ b ++ a) ∅ ∅) as [[bi ba] Hadd].
  { intros k first later _. apply Hfirst. }
  destruct (overrideTokens_total a ba) as [ba' Hov].
  { intros t Ht. eapply addTokens_present; [done|]. rewrite !elem_of_app. auto. }
  unfold aggregate. rewrite Hadd. simpl. rewrite Hov. simpl.
  assert (∀ i t later, inherited i = false →
            with_id i (v ++ b ++ a) = t :: later →
            te_address t ≠ "" → loaded i bi = true) as Hloaded.
  { intros i t later Hown Hi Ht. unfold loaded.
    rewrite (addTokens_byId _ _ _ _ _ _ i Hadd), lookup_empty, Hown, Hi. simpl.
    rewrite truthyS_lower. by apply truthyS_true. }
  rewrite (Hloaded _ _ _ inherited_NATIVE Hn Hne),
    (Hloaded _ _ _ inherited_WNATIVE Hw Hwe).
  simpl. eauto.
Qed.
End AggregateMore.

(** ** More on the adapters *)

Lemma or_num_nonzero o d : d ≠ 0 → or_num o d ≠ 0.
Proof.
  intros Hd. unfold or_num. destruct o as [n|]; [|done].
  destruct (Z.eqb_spec n 0); done.
Qed.

Lemma lookup_key_Some k l token :
  lookup_key k l = Some token → (k, token) ∈ l.
Proof.
  induction l as [|[k' t'] l IH]; simpl; [done|].
  destruct (String.eqb_spec k' k) as [->|Hne].
  - intros [= ->]. left.
  - intros H. right. by apply IH.
Qed.

Lemma lookup_key_None k l token :
  lookup_key k l = None → (k, token) ∉ l.
Proof.
  induction l as [|[k' t'] l IH]; simpl.
  - intros _ H. by apply elem_of_nil in H.
  - destruct (String.eqb_spec k' k) as [->|Hne]; [done|].
    intros H [Heq|Hin]%elem_of_cons; [congruence|]. by apply IH.
Qed.

Section AdapterMore.
Variable toApiChain : string → option string.

Lemma rewardToken_is_ok chainId reward :
  is_ok (rewardToken toApiChain chainId reward) = false
  ↔ ∃ x, r_chainId reward = Some x ∧ x ≠ "" ∧ toApiChain x = None.
Proof.
  unfold rewardToken. destruct (r_chainId reward) as [x|]; simpl.
  - destruct (truthyS x) eqn:Ex; simpl.
    + apply truthyS_true in Ex.
      destruct (toApiChain x) eqn:Et; simpl; split; try done.
      * intros (y & [= <-] & _ & ?). congruence.
      * intros _. eauto.
    + split; [done|]. intros (y & [= <-] & Hy & _).
      apply truthyS_true in Hy. congruence.
  - split; [done|]. by intros (y & ? & _).
Qed.

Lemma rewardToken_Err chainId reward e :
  rewardToken toApiChain chainId reward = Err e →
  ∃ x, e = UnknownChain x ∧ toApiChain x = None.
Proof.
  unfold rewardToken. destruct (truthy (r_chainId reward)); simpl; [|done].
  destruct (toApiChain _) eqn:Et; simpl; [done|]. intros [= <-]. eauto.
Qed.

Lemma rewardToken_chain chainId reward t :
  rewardToken toApiChain chainId reward = Ok t →
  (∀ x, r_chainId reward = Some x → x ≠ "" → toApiChain x = Some (te_chainId t))
  ∧ (truthy (r_chainId reward) = false → te_chainId t = chainId).
Proof.
  unfold rewardToken. destruct (r_chainId reward) as [x|]; simpl.
  - destruct (truthyS x) eqn:Ex; simpl.
    + destruct (toApiChain x) eqn:Et; simpl; [|done].
      intros [= <-]. simpl. split; [|done]. by intros y [= <-] _.
    + intros [= <-]. simpl. split; [|done].
      intros y [= <-] Hy. apply truthyS_true in Hy. congruence.
  - intros [= <-]. simpl. split; [|done]. by intros y.
Qed.

Lemma rewardTokens_complete chainId vaultAddresses rs l reward :
  rewardTokens toApiChain chainId vaultAddresses rs = Ok l →
  reward ∈ rs → rewardAccepted vaultAddresses reward = true →
  ∃ t, t ∈ l ∧ rewardToken toApiChain chainId reward = Ok t.
Proof.
  revert l. induction rs as [|r rs IH]; intros l; simpl.
  - intros _ Hin. by apply elem_of_nil in Hin.
  - intros Hl [->|Hin]%elem_of_cons Hacc.
    + rewrite Hacc in Hl.
      apply bind_Ok in Hl as (t & Ht & (rest & _ & [= <-])%bind_Ok).
      exists t. split; [left|done].
    + destruct (rewardAccepted vaultAddresses r).
      * apply bind_Ok in Hl as (t' & _ & (rest & Hrest & [= <-])%bind_Ok).
        destruct (IH _ Hrest Hin Hacc) as (t & ? & ?).
        exists t. split; [by right|done].
      * by apply IH.
Qed.

Lemma boostTokens_complete chainId vaultAddresses boosts l boost reward :
  boostTokens toApiChain chainId vaultAddresses boosts = Ok l →
  boost ∈ boosts → reward ∈ rewards boost →
  rewardAccepted vaultAddresses reward = true →
  ∃ t, t ∈ l ∧ rewardToken toApiChain chainId reward = Ok t.
Proof.
  revert l. induction boosts as [|b0 boosts IH]; intros l; simpl.
  - intros _ Hin. by apply elem_of_nil in Hin.
  - intros (here & Hhere & (rest & Hrest & [= <-])%bind_Ok)%bind_Ok.
    intros [->|Hin]%elem_of_cons Hr Hacc.
    + destruct (rewardTokens_complete _ _ _ _ _ Hhere Hr Hacc) as (t & ? & ?).
      exists t. split; [|done]. apply elem_of_app. by left.
    + destruct (IH _ Hrest Hin Hr Hacc) as (t & ? & ?).
      exists t. split; [|done]. apply elem_of_app. by right.
Qed.

Lemma rewardTokens_is_ok chainId vaultAddresses rs :
  is_ok (rewardTokens toApiChain chainId vaultAddresses rs) = false
  ↔ ∃ reward, reward ∈ rs ∧ rewardAccepted vaultAddresses reward = true
      ∧ is_ok (rewardToken toApiChain chainId reward) = false.
Proof.
  induction rs as [|r rs IH]; simpl.
  - split; [done|]. intros (reward & Hin & _). by apply elem_of_nil in Hin.
  - destruct (rewardAccepted vaultAddresses r) eqn:Eacc.
    + destruct (rewardToken toApiChain chainId r) as [t|e] eqn:Et; simpl.
      * destruct (rewardTokens toApiChain chainId vaultAddresses rs) as [rest|e];
          simpl in *.
        -- split; [done|]. intros (reward & [->|Hin]%elem_of_cons & Hacc & Hf).
           ++ by rewrite Et in Hf.
           ++ apply IH. eauto.
        -- split; [|done]. intros _.
           destruct (proj1 IH eq_refl) as (reward & Hin & ? & ?).
           exists reward. split; [by right|done].
      * split; [|done]. intros _. exists r. rewrite Et.
        split; [left|done].
    + rewrite IH. split.
      * intros (reward & Hin & ? & ?). exists reward. split; [by right|done].
      * intros (reward & [->|Hin]%elem_of_cons & Hacc & Hf); [congruence|eauto].
Qed.

Lemma boostTokens_is_ok chainId vaultAddresses boosts :
  is_ok (boostTokens toApiChain chainId vaultAddresses boosts) = false
  ↔ ∃ boost reward, boost ∈ boosts ∧ reward ∈ rewards boost
      ∧ rewardAccepted vaultAddresses reward = true
      ∧ is_ok (rewardToken toApiChain chainId reward) = false.
Proof.
  induction boosts as [|b0 boosts IH]; simpl.
  - split; [done|]. intros (boost & reward & Hin & _). by apply elem_of_nil in Hin.
  - destruct (rewardTokens toApiChain chainId vaultAddresses (rewards b0))
      as [here|e] eqn:Ehere; simpl.
    + destruct (boostTokens toApiChain chainId vaultAddresses boosts) as [rest|e];
        simpl in *.
      * split; [done|].
        intros (boost & reward & [->|Hin]%elem_of_cons & Hr & Hacc & Hf).
        -- assert (is_ok (rewardTokens toApiChain chainId vaultAddresses
                             (rewards b0)) = false) as Hno
             by (apply rewardTokens_is_ok; eauto).
           by rewrite Ehere in Hno.
        -- apply IH. eauto 10.
      * split; [|done]. intros _.
        destruct (proj1 IH eq_refl) as (boost & reward & Hin & ? & ? & ?).
        exists boost, reward. split; [by right|done].
    + split; [|done]. intros _.
      assert (is_ok (rewardTokens toApiChain chainId vaultAddresses
                       (rewards b0)) = false) as Hno by by rewrite Ehere.
      apply rewardTokens_is_ok in Hno as (reward & ? & ? & ?).
      exists b0, reward. split; [left|done].
Qed.

Lemma rewardTokens_Err chainId vaultAddresses rs e :
  rewardTokens toApiChain chainId vaultAddresses rs = Err e →
  ∃ x, e = UnknownChain x ∧ toApiChain x = None.
Proof.
  induction rs as [|r rs IH]; simpl; [done|].
  destruct (rewardAccepted vaultAddresses r); [|done].
  destruct (rewardToken toApiChain chainId r) as [t|e'] eqn:Et; simpl.
  - destruct (rewardTokens toApiChain chainId vaultAddresses rs); simpl; [done|].
    intros [= <-]. by apply IH.
  - intros [= <-]. by eapply rewardToken_Err.
Qed.

Lemma boostTokens_Err chainId vaultAddresses boosts e :
  boostTokens toApiChain chainId vaultAddresses boosts = Err e →
  ∃ x, e = UnknownChain x ∧ toApiChain x = None.
Proof.
  induction boosts as [|b0 boosts IH]; simpl; [done|].
  destruct (rewardTokens toApiChain chainId vaultAddresses (rewards b0))
    as [here|e'] eqn:Ehere; simpl.
  - destruct (boostTokens toApiChain chainId vaultAddresses boosts); simpl; [done|].
    intros [= <-]. by apply IH.
  - intros [= <-]. by eapply rewardTokens_Err.
Qed.
End AdapterMore.

(** ** More on one chain and on publication *)

Section FetchMore.
Variable getAddress : string → option string.
Variable isApiChain : string → bool.
Variable toApiChain : string → option string.
Variable src : Sources.

Lemma merged_native_bridge chainId boostTokens t :
  fetchBoostTokensForChain toApiChain src chainId = Ok boostTokens →
  t ∈ (fetchVaultTokensForChain src chainId ++ boostTokens
       ++ fetchAddressBookTokensForChain src chainId)%list →
  te_type t = native → te_bridge t = Some "native".
Proof.
  intros Hboost Hin Ht.
  rewrite !elem_of_app in Hin. destruct Hin as [Hin|[Hin|Hin]].
  - apply fetchVaultTokensForChain_elem in Hin as (? & _). congruence.
  - apply (fetchBoostTokensForChain_elem _ _ _ _ _ Hboost) in Hin as (? & _).
    congruence.
  - apply fetchAddressBookTokensForChain_elem in Hin
      as (chainBook & id & token & _ & _ & Hin).
    unfold abEntryTokens in Hin.
    destruct (String.eqb (toLowerCase id)
                (toLowerCase (n_symbol (native_info chainBook)))).
    + by apply list_elem_of_singleton in Hin as ->.
    + apply elem_of_cons in Hin as [->|Hin]; [done|].
      destruct (String.eqb id "WNATIVE"); [|by apply elem_of_nil in Hin].
      by apply list_elem_of_singleton in Hin as ->.
Qed.

Lemma fetchTokensForChain_Err chainId e :
  fetchTokensForChain getAddress isApiChain toApiChain src chainId = Err e →
  (e = InvalidChain chainId ∧ isApiChain chainId = false)
  ∨ (isApiChain chainId = true
     ∧ ((∃ x, e = UnknownChain x ∧ toApiChain x = None)
        ∨ (∃ x, e = InvalidAddress x ∧ getAddress x = None)
        ∨ e = NoNativeLoaded chainId ∨ e = NoWnativeLoaded chainId)).
Proof.
  unfold fetchTokensForChain. destruct (isApiChain chainId); simpl.
  - intros H. right. split; [done|].
    destruct (fetchBoostTokensForChain toApiChain src chainId) as [bt|e'] eqn:Eb;
      simpl in H.
    + apply aggregate_Err_cause in H as [?|[?|?]]; auto.
    + injection H as <-. left. by eapply boostTokens_Err.
  - intros [= <-]. by left.
Qed.
End FetchMore.

Lemma publish_emitted chains byChain s :
  List.length chains = List.length byChain →
  emitted (publish chains byChain s)
  = (emitted s ++ map (λ chainId, "tokens/" +:+ chainId +:+ "/ready") chains)%list.
Proof.
  revert byChain s. induction chains as [|c chains IH]; intros byChain s Hlen.
  - simpl. by rewrite app_nil_r.
  - destruct byChain as [|table byChain]; [done|]. simpl.
    rewrite IH by (simpl in Hlen; lia). simpl. by rewrite <- app_assoc.
Qed.

Lemma publish_lookup_all {f : string → result ChainTokens} chains byChain s
    chainId :
  Forall2 (λ c t, f c = Ok t) chains byChain →
  chainId ∈ chains →
  ∃ table, f chainId = Ok table
           ∧ tokensByChain (publish chains byChain s) !! chainId = Some table.
Proof.
  intros Hall. revert s. induction Hall as [|c t chains byChain Hc Hall IH];
    intros s Hin.
  - by apply elem_of_nil in Hin.
  - simpl. destruct (decide (chainId ∈ chains)) as [Hrest|Hnot].
    + by apply IH.
    + apply elem_of_cons in Hin as [->|?]; [|done].
      exists t. split; [done|].
      rewrite publish_other by done. simpl. apply lookup_insert_eq.
Qed.

Lemma address_book_roles src chainId chainBook w :
  addressBook src chainId = Some chainBook →
  lookup_key "WNATIVE" (tokens chainBook) = Some w →
  toLowerCase (n_symbol (native_info chainBook)) ≠ "wnative" →
  ∃ tw tn, tw ∈ fetchAddressBookTokensForChain src chainId
    ∧ tn ∈ fetchAddressBookTokensForChain src chainId
    ∧ te_id tw = "WNATIVE" ∧ te_id tn = "NATIVE".
Proof.
  intros Hbook Hw Hsym.
  assert (fetchAddressBookTokensForChain src chainId
          = flat_map (abEntryTokens chainId (native_info chainBook))
              (tokens chainBook)) as ->.
  { unfold fetchAddressBookTokensForChain. rewrite Hbook, Hw.
    by destruct (tokens chainBook). }
  apply lookup_key_Some in Hw.
  assert (String.eqb (toLowerCase "WNATIVE")
            (toLowerCase (n_symbol (native_info chainBook))) = false) as E.
  { apply eqb_false_ne. intros Heq. apply Hsym. by rewrite <- Heq. }
  eexists _, _. split_and!.
  - apply elem_of_flat_map. exists ("WNATIVE", w). split; [done|].
    unfold abEntryTokens. rewrite E. left.
  - apply elem_of_flat_map. exists ("WNATIVE", w). split; [done|].
    unfold abEntryTokens. rewrite E. right. simpl. left.
  - done.
  - done.
Qed.

(** ** Runs of the model *)

Example scenario_bsc_fails :
  fetchTokensForChain getAddress_hex Scenario.isApiChain Scenario.toApiChain
    Scenario.bookOnly "bsc" = Err (NoNativeLoaded "bsc")
  ∧ fetchTokensForChain getAddress_hex Scenario.isApiChain Scenario.toApiChain
      Scenario.bookOnly "fantom" = Err (InvalidChain "fantom").
Proof. vm_compute. auto. Qed.

Example scenario_eth_native :
  let s := updateTokens getAddress_hex Scenario.isApiChain Scenario.toApiChain
             Scenario.bookOnly ["eth"] Scenario.emptyService in
  emitted s = ["tokens/eth/ready"; "tokens/updated"]
  ∧ getTokenNative (tokensByChain s) "eth" = Ok Scenario.nativeToken
  ∧ getTokenWrappedNative (tokensByChain s) "eth"
    = Ok (set_address "0xC02AAA39B223FE8D0A0E5C4F27EAD9083C756CC2" Scenario.wnativeToken).
Proof. vm_compute. auto. Qed.

(** ** Properties of the getters *)

(** C6. [getTokenNative] fails, with the not-found error naming the chain,
    exactly when the chain has no published table or no record of the native
    variant is resolvable under the id NATIVE; otherwise it returns that
    record.  The same holds for [getTokenWrappedNative] with the id WNATIVE
    and the erc20 variant. *)
Theorem getTokenNative_not_configured (reg : gmap string ChainTokens) chainId :
  (getTokenNative reg chainId = Err (NoNativeFound chainId)
   ↔ reg !! chainId = None
     ∨ ¬ ∃ t, resolves reg chainId "NATIVE" t ∧ te_type t = native)
  ∧ (∀ e, getTokenNative reg chainId = Err e → e = NoNativeFound chainId)
  ∧ (∀ t, getTokenNative reg chainId = Ok t
          ↔ resolves reg chainId "NATIVE" t ∧ te_type t = native)
  ∧ (getTokenWrappedNative reg chainId = Err (NoWnativeFound chainId)
     ↔ reg !! chainId = None
       ∨ ¬ ∃ t, resolves reg chainId "WNATIVE" t ∧ te_type t = erc20)
  ∧ (∀ e, getTokenWrappedNative reg chainId = Err e → e = NoWnativeFound chainId)
  ∧ (∀ t, getTokenWrappedNative reg chainId = Ok t
          ↔ resolves reg chainId "WNATIVE" t ∧ te_type t = erc20).
Proof.
  split_and!.
  - split.
    + intros He. right. intros (t & Ht). apply getTokenNative_Ok in Ht. congruence.
    + intros Hno.
      destruct (result_cases (getTokenNative reg chainId)) as [[t Ht]|[e He]].
      * apply getTokenNative_Ok in Ht as Ht'. destruct Hno as [Hn|Hn].
        -- destruct Ht' as [Hr _]. by apply resolves_unpublished in Hr.
        -- destruct Hn. eauto.
      * by rewrite He, (getTokenNative_Err _ _ _ He).
  - apply getTokenNative_Err.
  - apply getTokenNative_Ok.
  - split.
    + intros He. right. intros (t & Ht). apply getTokenWrappedNative_Ok in Ht.
      congruence.
    + intros Hno.
      destruct (result_cases (getTokenWrappedNative reg chainId)) as [[t Ht]|[e He]].
      * apply getTokenWrappedNative_Ok in Ht as Ht'. destruct Hno as [Hn|Hn].
        -- destruct Ht' as [Hr _]. by apply resolves_unpublished in Hr.
        -- destruct Hn. eauto.
      * by rewrite He, (getTokenWrappedNative_Err _ _ _ He).
  - apply getTokenWrappedNative_Err.
  - apply getTokenWrappedNative_Ok.
Qed.

(** C7, as stated, fails: with nothing published, a record that is not the
    wrapped-native record of its chain is not returned unchanged; the call
    fails because the wrapped-native record cannot be resolved. *)
Lemma wrappedToNative_total_counterexample :
  wrappedToNative ∅ Scenario.usdcToken = Err (NoWnativeFound "eth")
  ∧ ¬ wrappedToNative_total ∅ Scenario.usdcToken.
Proof.
  split; [reflexivity|].
  intros [_ H].
  assert (wrappedToNative ∅ Scenario.usdcToken = Ok Scenario.usdcToken) as Hw.
  { apply H. intros (w & [(table & a & Hr & _) _] & _).
    by rewrite lookup_empty in Hr. }
  vm_compute in Hw. discriminate.
Qed.

(** C7, amended.  [wrappedToNative] first resolves the wrapped-native record
    of the chain of its argument.  If there is none it fails with the
    no-wnative error.  If there is one and the argument has the same chain,
    address and type, the outcome is that of [getTokenNative] for the chain
    (the native record, or its not-found error).  If there is one and the
    argument differs from it, the argument is returned unchanged. *)
Theorem wrappedToNative_cases (reg : gmap string ChainTokens) token :
  ((¬ ∃ w, wrapped_native_of reg token w) →
     wrappedToNative reg token = Err (NoWnativeFound (te_chainId token)))
  ∧ (∀ w, wrapped_native_of reg token w → same_token token w →
       wrappedToNative reg token = getTokenNative reg (te_chainId token))
  ∧ (∀ w, wrapped_native_of reg token w → ¬ same_token token w →
       wrappedToNative reg token = Ok token).
Proof.
  unfold wrappedToNative, wrapped_native_of. split_and!.
  - intros Hno.
    destruct (result_cases (getTokenWrappedNative reg (te_chainId token)))
      as [[w Hw]|[e He]].
    + apply getTokenWrappedNative_Ok in Hw. destruct Hno. eauto.
    + rewrite He. simpl. by rewrite (getTokenWrappedNative_Err _ _ _ He).
  - intros w Hw%getTokenWrappedNative_Ok Heq%areTokensEqual_true.
    rewrite Hw. simpl. by rewrite Heq.
  - intros w Hw%getTokenWrappedNative_Ok Hne%areTokensEqual_false.
    rewrite Hw. simpl. by rewrite Hne.
Qed.

(** C9. [getTokenFees] returns the erc20 record resolvable under the id FEES
    and fails, with its own not-found error, in every other case: no
    published table, no FEES entry, or an entry of another variant.  The
    refresh does not check FEES: a chain can be refreshed successfully and
    published while [getTokenFees] fails for it. *)
Theorem getTokenFees_unchecked :
  (∀ (reg : gmap string ChainTokens) chainId,
     (∀ t, getTokenFees reg chainId = Ok t
           ↔ resolves reg chainId "FEES" t ∧ te_type t = erc20)
     ∧ (getTokenFees reg chainId = Err (NoFeesFound chainId)
        ↔ ¬ ∃ t, resolves reg chainId "FEES" t ∧ te_type t = erc20)
     ∧ (∀ e, getTokenFees reg chainId = Err e → e = NoFeesFound chainId))
  ∧ (∃ getAddress isApiChain toApiChain src chains chainId table,
       fetchTokensForChain getAddress isApiChain toApiChain src chainId = Ok table
       ∧ tokensByChain (updateTokens getAddress isApiChain toApiChain src chains
                          Scenario.emptyService) !! chainId = Some table
       ∧ getTokenFees
           (tokensByChain (updateTokens getAddress isApiChain toApiChain src chains
                             Scenario.emptyService)) chainId
         = Err (NoFeesFound chainId)).
Proof.
  split.
  - intros reg chainId. split_and!.
    + apply getTokenFees_Ok.
    + split.
      * intros He (t & Ht%getTokenFees_Ok). congruence.
      * intros Hno.
        destruct (result_cases (getTokenFees reg chainId)) as [[t Ht]|[e He]].
        -- apply getTokenFees_Ok in Ht. destruct Hno. eauto.
        -- by rewrite He, (getTokenFees_Err _ _ _ He).
    + apply getTokenFees_Err.
  - exists getAddress_hex, Scenario.isApiChain, Scenario.toApiChain,
      Scenario.bookOnly, ["eth"], "eth".
    destruct (fetchTokensForChain getAddress_hex Scenario.isApiChain
                Scenario.toApiChain Scenario.bookOnly "eth") as [table|e] eqn:E;
      [|by vm_compute in E].
    exists table. split; [done|].
    unfold updateTokens. simpl. rewrite E. simpl.
    rewrite lookup_insert_eq. split; [done|].
    vm_compute in E. injection E as <-. vm_compute. reflexivity.
Qed.

(** ** Properties of the merge *)



(** C3.  The merge intends first write wins for the id index, but its test
    [byId[token.id] === undefined] is never true for a name the dictionary
    inherits from [Object.prototype]: a logical id such as [constructor] is
    never written, whichever record comes first, so no record determines
    the id entry, although every such record is still processed for the
    address index. *)
Theorem inherited_id_never_mapped getAddress chainId (v b a : list TokenEntity)
    table (t : TokenEntity) :
  aggregate getAddress chainId v b a = Ok table →
  t ∈ (v ++ b ++ a)%list →
  inherited (te_id t) = true →
  byId table !! te_id t = None
  ∧ is_Some (byAddress table !! toLowerCase (te_address t)).
Proof.
  intros Hagg Hin Hinh. split.
  - by rewrite (aggregate_byId _ _ _ _ _ _ _ Hagg), Hinh.
  - destruct (aggregate_inv _ _ _ _ _ _ Hagg) as (ba & Hadd & Hov & _).
    destruct (addTokens_present _ _ _ _ _ _ _ Hadd Hin) as [e He].
    rewrite (overrideTokens_lookup _ _ _ _ Hov), He.
    destruct (last _); simpl; eauto.
Qed.

Lemma inherited_id_never_mapped_witness :
  ∃ table,
    aggregate getAddress_hex "eth" [Scenario.ctorToken] [Scenario.ctorElsewhere]
      [Scenario.wnativeToken; Scenario.nativeToken] = Ok table
    ∧ byId table !! "constructor" = None
    ∧ byId table !! "constructor" ≠ Some (toLowerCase Scenario.USDC)
    ∧ is_Some (byAddress table !! toLowerCase Scenario.USDC).
Proof.
  destruct (aggregate getAddress_hex "eth" [Scenario.ctorToken]
              [Scenario.ctorElsewhere] [Scenario.wnativeToken; Scenario.nativeToken])
    as [table|e] eqn:E; [|vm_compute in E; discriminate].
  destruct (inherited_id_never_mapped getAddress_hex "eth" [Scenario.ctorToken]
              [Scenario.ctorElsewhere] [Scenario.wnativeToken; Scenario.nativeToken]
              table Scenario.ctorToken) as [Hid Haddr].
  - exact E.
  - left.
  - reflexivity.
  - exists table. split; [reflexivity|]. split; [exact Hid|].
    split; [|exact Haddr]. simpl in Hid. rewrite Hid. discriminate.
Defined.

(** First write wins in the id index for every id that is not an inherited
    name, in the order vault records, boost records, address-book records.
    When two records of the concatenation share such an id and no record
    before the earlier one has that id, the id maps to the lower-cased
    address of the earlier one; the later one still gets its address into
    the address index. *)
Lemma id_first_write_wins getAddress chainId (v b a : list TokenEntity) table
    (l1 l2 l3 : list TokenEntity) (t1 t2 : TokenEntity) :
  aggregate getAddress chainId v b a = Ok table →
  (v ++ b ++ a = l1 ++ t1 :: l2 ++ t2 :: l3)%list →
  te_id t2 = te_id t1 →
  inherited (te_id t1) = false →
  Forall (λ t, te_id t ≠ te_id t1) l1 →
  byId table !! te_id t1 = Some (toLowerCase (te_address t1))
  ∧ byId table !! te_id t2 = Some (toLowerCase (te_address t1))
  ∧ is_Some (byAddress table !! toLowerCase (te_address t2)).
Proof.
  intros Hagg Hl Hid Hown Hl1.
  assert (byId table !! te_id t1 = Some (toLowerCase (te_address t1))) as H1.
  { rewrite (aggregate_byId _ _ _ _ _ _ _ Hagg), Hown, Hl.
    unfold with_id. rewrite filter_app, filter_cons, decide_True by done.
    replace (filter (λ t, te_id t = te_id t1) l1) with (@nil TokenEntity); [done|].
    symmetry. clear -Hl1. induction Hl1 as [|t l Ht _ IH]; [done|].
    by rewrite filter_cons, decide_False. }
  split_and!; [done|by rewrite Hid|].
  destruct (aggregate_inv _ _ _ _ _ _ Hagg) as (ba & Hadd & Hov & _).
  assert (is_Some (ba !! toLowerCase (te_address t2))) as [e He].
  { eapply addTokens_present; [done|]. rewrite Hl.
    rewrite elem_of_app, elem_of_cons, elem_of_app, elem_of_cons. auto. }
  rewrite (overrideTokens_lookup _ _ _ _ Hov), He.
  destruct (last _); simpl; eauto.
Qed.

Lemma id_first_write_wins_witness :
  ∃ table,
    aggregate getAddress_hex "eth" [Scenario.usdcToken] [Scenario.usdcElsewhere]
      [Scenario.wnativeToken; Scenario.nativeToken] = Ok table
    ∧ byId table !! "USDC" = Some (toLowerCase Scenario.USDC)
    ∧ is_Some (byAddress table !! toLowerCase Scenario.MOO).
Proof.
  destruct (aggregate getAddress_hex "eth" [Scenario.usdcToken]
              [Scenario.usdcElsewhere] [Scenario.wnativeToken; Scenario.nativeToken])
    as [table|e] eqn:E; [|vm_compute in E; discriminate].
  exists table. split; [reflexivity|].
  destruct (id_first_write_wins getAddress_hex "eth" [Scenario.usdcToken]
              [Scenario.usdcElsewhere] [Scenario.wnativeToken; Scenario.nativeToken]
              table [] [] [Scenario.wnativeToken; Scenario.nativeToken]
              Scenario.usdcToken Scenario.usdcElsewhere) as (H1 & _ & H3).
  - exact E.
  - reflexivity.
  - reflexivity.
  - reflexivity.
  - constructor.
  - split; [exact H1|exact H3].
Defined.




(** ** Properties of the adapters and of the refresh *)

(** C8. Every record the boost adapter emits comes from a reward of a boost
    of the chain that is of type token and has a non-empty address which is
    neither the native sentinel nor the earn-contract address of a vault of
    the chain; the record carries that address.  So no emitted record has the
    address of a vault's receipt token. *)
Theorem boost_adapter_exclusions toApiChain src chainId (l : list TokenEntity)
    (t : TokenEntity) :
  fetchBoostTokensForChain toApiChain src chainId = Ok l →
  t ∈ l →
  (∃ boost reward,
     boost ∈ default [] (getChainNewBoosts src chainId)
     ∧ reward ∈ rewards boost
     ∧ rewardToken toApiChain chainId reward = Ok t
     ∧ r_type reward = "token"
     ∧ r_address reward = Some (te_address t)
     ∧ te_address t ≠ ""
     ∧ te_address t ≠ "native")
  ∧ (∀ vault, vault ∈ default [] (getSingleChainVaults src chainId) →
       te_address t ≠ v_earnContractAddress vault).
Proof.
  intros H Hin.
  destruct (boostTokens_elem _ _ _ _ _ _ H Hin)
    as (boost & reward & Hb & Hr & Hacc & Htok).
  apply rewardAccepted_true in Hacc as (Hty & x & Hx & Hne & Hnat & Hv).
  pose proof (rewardToken_Ok _ _ _ _ Htok) as (_ & _ & Ha & _).
  rewrite Hx in Ha. simpl in Ha. subst x. split.
  - exists boost, reward. split_and!; done.
  - intros vault Hvault Heq. apply Hv. unfold vaultAddressSet.
    apply elem_of_list_to_set, list_elem_of_fmap. eauto.
Qed.

Lemma boost_adapter_exclusions_witness :
  fetchBoostTokensForChain Scenario.toApiChain Scenario.boosted "eth"
  = Ok [Scenario.usdcToken]
  ∧ te_address Scenario.usdcToken ≠ v_earnContractAddress Scenario.vaultNamedNative.
Proof.
  split; [vm_compute; reflexivity|].
  apply (boost_adapter_exclusions Scenario.toApiChain Scenario.boosted "eth"
           [Scenario.usdcToken] Scenario.usdcToken).
  - vm_compute. reflexivity.
  - left.
  - left.
Defined.

(** C2. Cycle atomicity.  If the aggregation of one of the chains fails, a
    run of [updateTokens] leaves the service as it was: the cache holds for
    every chain what it held before, also for the chains whose aggregation
    succeeded, and no event is emitted. *)
Theorem updateTokens_atomic getAddress isApiChain toApiChain src
    (chains : list string) (s : Service) chainId e :
  chainId ∈ chains →
  fetchTokensForChain getAddress isApiChain toApiChain src chainId = Err e →
  updateTokens getAddress isApiChain toApiChain src chains s = s.
Proof.
  intros Hin Hfail. unfold updateTokens.
  by destruct (mapR_Err _ _ _ _ Hin Hfail) as [e' ->].
Qed.

Lemma updateTokens_atomic_witness :
  let before :=
    updateTokens getAddress_hex Scenario.isApiChain Scenario.toApiChain
      Scenario.bookOnly ["eth"] Scenario.emptyService in
  is_Some (tokensByChain before !! "eth")
  ∧ is_ok (fetchTokensForChain getAddress_hex Scenario.isApiChain
             Scenario.toApiChain Scenario.shadowed "eth") = true
  ∧ updateTokens getAddress_hex Scenario.isApiChain Scenario.toApiChain
      Scenario.shadowed ["eth"; "bsc"] before
    = before.
Proof.
  split; [vm_compute; eauto|].
  split; [vm_compute; reflexivity|].
  apply (updateTokens_atomic getAddress_hex Scenario.isApiChain Scenario.toApiChain
           Scenario.shadowed ["eth"; "bsc"] _ "bsc" (NoNativeLoaded "bsc")).
  - right. left.
  - vm_compute. reflexivity.
Defined.






(** ** Further properties of the getters *)

(** X1. [areTokensEqual] is an equivalence relation on records; it looks at
    chain, address (as written, case matters) and type only. *)
Theorem areTokensEqual_equivalence :
  (∀ a, areTokensEqual a a = true)
  ∧ (∀ a b, areTokensEqual a b = areTokensEqual b a)
  ∧ (∀ a b c, areTokensEqual a b = true → areTokensEqual b c = true →
       areTokensEqual a c = true)
  ∧ (∀ a b, te_chainId a = te_chainId b → te_address a = te_address b →
       te_type a = te_type b → areTokensEqual a b = true).
Proof.
  split_and!.
  - intros a. by apply areTokensEqual_true.
  - intros a b.
    destruct (areTokensEqual a b) eqn:Eab, (areTokensEqual b a) eqn:Eba; try done.
    + apply areTokensEqual_true in Eab as (? & ? & ?).
      apply areTokensEqual_false in Eba. destruct Eba. by split_and!.
    + apply areTokensEqual_true in Eba as (? & ? & ?).
      apply areTokensEqual_false in Eab. destruct Eab. by split_and!.
  - intros a b c (? & ? & ?)%areTokensEqual_true (? & ? & ?)%areTokensEqual_true.
    apply areTokensEqual_true. split_and!; congruence.
  - intros a b ? ? ?. by apply areTokensEqual_true.
Qed.

(** X2. When a chain has both a native and a wrapped-native record and both
    carry that chain, [nativeToWrapped] and [wrappedToNative] swap the two,
    and each leaves the record of the other kind alone. *)
Theorem native_wrapped_round_trip (reg : gmap string ChainTokens) chainId n w :
  getTokenNative reg chainId = Ok n →
  getTokenWrappedNative reg chainId = Ok w →
  te_chainId n = chainId →
  te_chainId w = chainId →
  nativeToWrapped reg n = Ok w
  ∧ wrappedToNative reg w = Ok n
  ∧ wrappedToNative reg n = Ok n
  ∧ nativeToWrapped reg w = Ok w.
Proof.
  intros Hn Hw Hcn Hcw.
  pose proof (proj1 (getTokenNative_Ok _ _ _) Hn) as [_ Htn].
  pose proof (proj1 (getTokenWrappedNative_Ok _ _ _) Hw) as [_ Htw].
  unfold nativeToWrapped, wrappedToNative, isTokenNative.
  rewrite Hcn, Hcw, Hw. simpl.
  rewrite Htn, Htw. simpl.
  assert (areTokensEqual w w = true) as -> by by apply areTokensEqual_true.
  assert (areTokensEqual n w = false) as ->.
  { apply areTokensEqual_false. intros (_ & _ & ?). congruence. }
  by rewrite Hn.
Qed.

Lemma native_wrapped_round_trip_witness :
  let reg :=
    tokensByChain
      (updateTokens getAddress_hex Scenario.isApiChain Scenario.toApiChain
         Scenario.bookOnly ["eth"] Scenario.emptyService) in
  ∃ n w, getTokenNative reg "eth" = Ok n
    ∧ nativeToWrapped reg n = Ok w ∧ wrappedToNative reg w = Ok n.
Proof.
  intros reg.
  destruct (getTokenNative reg "eth") as [n|e] eqn:En;
    [|vm_compute in En; discriminate].
  destruct (getTokenWrappedNative reg "eth") as [w|e] eqn:Ew;
    [|vm_compute in Ew; discriminate].
  destruct (native_wrapped_round_trip reg "eth" n w) as (H1 & H2 & _).
  - exact En.
  - exact Ew.
  - vm_compute in En. injection En as <-. reflexivity.
  - vm_compute in Ew. injection Ew as <-. reflexivity.
  - exists n, w. split; [reflexivity|]. split; [exact H1|exact H2].
Defined.

(** ** Further properties of the merge *)

(** X3. Round trip through the address index.  When [getAddress] changes
    nothing but the casing of an address, every record of an aggregated
    table is stored under the lower-cased form of its own address, and
    [getTokenByAddress] finds it from any casing of that address. *)
Theorem stored_record_found_by_address getAddress chainId
    (v b a : list TokenEntity) table (reg : gmap string ChainTokens) k e :
  (∀ x r, getAddress x = Some r → toLowerCase r = toLowerCase x) →
  aggregate getAddress chainId v b a = Ok table →
  reg !! chainId = Some table →
  byAddress table !! k = Some e →
  toLowerCase (te_address e) = k
  ∧ ∀ x, toLowerCase x = toLowerCase (te_address e) →
         getTokenByAddress reg x chainId = Some e.
Proof.
  intros Hcase Hagg Hreg He.
  destruct (aggregate_entry_origin _ _ _ _ _ _ _ _ Hagg He)
    as (first & later & s & Hat & Hs & Heq).
  apply at_address_head in Hat as [_ Hk].
  assert (te_address e = te_address s) as Ha.
  { rewrite Heq. by destruct (last _). }
  assert (toLowerCase (te_address e) = k) as Hke.
  { rewrite Ha, <- Hk.
    destruct (stored_fields _ _ _ Hs) as (_ & _ & Hnat & Herc).
    destruct (te_type first).
    - by rewrite (Hnat eq_refl).
    - by apply Hcase, Herc. }
  split; [done|].
  intros x Hx. unfold getTokenByAddress. by rewrite Hreg, Hx, Hke.
Qed.

Lemma stored_record_found_by_address_witness :
  ∃ table e,
    aggregate getAddress_hex "eth" [Scenario.usdcToken] []
      [Scenario.wnativeToken; Scenario.nativeToken] = Ok table
    ∧ getTokenByAddress (<["eth" := table]> ∅) Scenario.USDC "eth" = Some e
    ∧ getTokenByAddress (<["eth" := table]> ∅) (toLowerCase Scenario.USDC) "eth"
      = Some e.
Proof.
  destruct (aggregate getAddress_hex "eth" [Scenario.usdcToken] []
              [Scenario.wnativeToken; Scenario.nativeToken])
    as [table|err] eqn:E; [|vm_compute in E; discriminate].
  destruct (byAddress table !! toLowerCase Scenario.USDC) as [e|] eqn:Ee;
    [|vm_compute in E; injection E as <-; vm_compute in Ee; discriminate].
  destruct (stored_record_found_by_address getAddress_hex "eth"
              [Scenario.usdcToken] [] [Scenario.wnativeToken; Scenario.nativeToken]
              table (<["eth" := table]> ∅) (toLowerCase Scenario.USDC) e)
    as [Hk Hfind].
  - exact getAddress_hex_lower.
  - exact E.
  - apply lookup_insert_eq.
  - exact Ee.
  - exists table, e. split; [reflexivity|].
    split; apply Hfind; rewrite Hk; vm_compute; reflexivity.
Defined.




(** X6. The precedence pass touches address-book addresses only.  At an
    address that no address-book record has, the entry is what the first
    vault or boost record of that address stored, with at most the bridge
    tag filled in: its symbol and oracle id are those of that first
    record. *)
Theorem uncurated_address_keeps_first_writer getAddress chainId
    (v b a : list TokenEntity) table k e :
  aggregate getAddress chainId v b a = Ok table →
  (∀ t, t ∈ a → toLowerCase (te_address t) ≠ k) →
  byAddress table !! k = Some e →
  ∃ first later s,
    at_address k (v ++ b) = first :: later
    ∧ stored getAddress first = Some s
    ∧ e = set_bridge (backfill (te_bridge s) later) s
    ∧ te_symbol e = te_symbol first
    ∧ te_oracleId e = te_oracleId first.
Proof.
  intros Hagg Hno He.
  destruct (aggregate_entry_origin _ _ _ _ _ _ _ _ Hagg He)
    as (first & later & s & Hat & Hs & Heq).
  apply at_address_nil in Hno.
  rewrite Hno in Heq. simpl in Heq.
  assert (at_address k (v ++ b) = first :: later) as Hvb.
  { rewrite <- Hat. unfold at_address in *.
    rewrite app_assoc, (filter_app _ (v ++ b) a), Hno. by rewrite app_nil_r. }
  exists first, later, s. split_and!; [done..| |].
  - rewrite Heq. simpl. unfold stored in Hs.
    destruct (te_type first); [congruence|].
    destruct (getAddress _); simpl in Hs; [|done]. by injection Hs as <-.
  - rewrite Heq. simpl. unfold stored in Hs.
    destruct (te_type first); [congruence|].
    destruct (getAddress _); simpl in Hs; [|done]. by injection Hs as <-.
Qed.

Lemma uncurated_address_keeps_first_writer_witness :
  ∃ table e,
    aggregate getAddress_hex "eth" [Scenario.usdcToken] []
      [Scenario.wnativeToken; Scenario.nativeToken] = Ok table
    ∧ byAddress table !! toLowerCase Scenario.USDC = Some e
    ∧ te_symbol e = "USDC" ∧ te_oracleId e = "USDC".
Proof.
  destruct (aggregate getAddress_hex "eth" [Scenario.usdcToken] []
              [Scenario.wnativeToken; Scenario.nativeToken])
    as [table|err] eqn:E; [|vm_compute in E; discriminate].
  destruct (byAddress table !! toLowerCase Scenario.USDC) as [e|] eqn:Ee;
    [|vm_compute in E; injection E as <-; vm_compute in Ee; discriminate].
  destruct (uncurated_address_keeps_first_writer getAddress_hex "eth"
              [Scenario.usdcToken] [] [Scenario.wnativeToken; Scenario.nativeToken]
              table (toLowerCase Scenario.USDC) e)
    as (first & later & s & Hat & _ & _ & Hsym & Ho).
  - exact E.
  - intros t Ht. rewrite !elem_of_cons, elem_of_nil in Ht.
    destruct Ht as [->|[->|[]]]; vm_compute; discriminate.
  - exact Ee.
  - vm_compute in Hat. injection Hat as <- _.
    exists table, e. split; [reflexivity|]. split; [exact Ee|].
    split; [exact Hsym|exact Ho].
Defined.

(** X7. The merge loop only adds.  An id that is mapped keeps its address,
    and an entry of the address index stays in place with all its fields
    except possibly the bridge tag, which changes only if it was missing. *)
Theorem addTokens_only_grows getAddress (l : list TokenEntity)
    (bi bi' : gmap string string) (ba ba' : gmap string TokenEntity) :
  addTokens getAddress l (bi, ba) = Ok (bi', ba') →
  (∀ i x, bi !! i = Some x → bi' !! i = Some x)
  ∧ (∀ k e, ba !! k = Some e →
       ∃ e', ba' !! k = Some e'
         ∧ set_bridge (te_bridge e) e' = e
         ∧ (truthy (te_bridge e) = true → e' = e)).
Proof.
  intros Hadd. split.
  - intros i x Hi. by rewrite (addTokens_byId _ _ _ _ _ _ i Hadd), Hi.
  - intros k e He. rewrite (addTokens_byAddress _ _ _ _ _ _ k Hadd), He.
    eexists. split; [done|]. split.
    + by rewrite set_bridge_set_bridge, set_bridge_id.
    + intros Hb. by rewrite (backfill_truthy _ _ Hb), set_bridge_id.
Qed.

Lemma addTokens_only_grows_witness :
  ∃ bi' (ba' : gmap string TokenEntity),
    addTokens getAddress_hex [Scenario.usdcElsewhere; Scenario.usdcBridged]
      (<["USDC" := toLowerCase Scenario.USDC]> ∅,
       <[toLowerCase Scenario.USDC := Scenario.usdcToken]> ∅) = Ok (bi', ba')
    ∧ bi' !! "USDC" = Some (toLowerCase Scenario.USDC)
    ∧ ba' !! toLowerCase Scenario.USDC
      = Some (set_bridge (Some "canonical") Scenario.usdcToken).
Proof.
  destruct (addTokens getAddress_hex [Scenario.usdcElsewhere; Scenario.usdcBridged]
              (<["USDC" := toLowerCase Scenario.USDC]> ∅,
               <[toLowerCase Scenario.USDC := Scenario.usdcToken]> ∅))
    as [[bi' ba']|err] eqn:E; [|vm_compute in E; discriminate].
  destruct (addTokens_only_grows getAddress_hex _ _ _ _ _ E) as [Hid _].
  exists bi', ba'. split; [reflexivity|]. split.
  - apply Hid. apply lookup_insert_eq.
  - vm_compute in E. injection E as <- <-. vm_compute. reflexivity.
Defined.

(** ** Further properties of the adapters *)

(** X8. Every record of the vault adapter is an erc20 record of the
    requested chain without bridge or staked flag, whose symbol and name are
    its id and whose address is not empty.  It is either the deposit token
    of a vault that is not cowcentrated, with the vault's oracle data, or the
    earned token of a vault, whose address is neither the native sentinel
    nor the vault's own earn contract and whose decimals are never zero. *)
Theorem vault_adapter_records src chainId (t : TokenEntity) :
  t ∈ fetchVaultTokensForChain src chainId →
  te_type t = erc20 ∧ te_chainId t = chainId
  ∧ te_symbol t = te_id t ∧ te_name t = te_id t
  ∧ te_address t ≠ "" ∧ te_bridge t = None ∧ te_staked t = None
  ∧ ∃ vault, vault ∈ default [] (getVaultsByChain src chainId)
      ∧ ((v_type vault ≠ "cowcentrated"
          ∧ v_tokenAddress vault = Some (te_address t)
          ∧ te_id t = v_token vault
          ∧ te_oracle t = v_oracle vault
          ∧ te_oracleId t = v_oracleId vault
          ∧ te_decimals t = v_tokenDecimals vault)
         ∨ (v_earnedTokenAddress vault = Some (te_address t)
            ∧ te_address t ≠ "native"
            ∧ te_address t ≠ v_earnContractAddress vault
            ∧ te_id t = v_earnedToken vault
            ∧ te_oracle t = "tokens"
            ∧ te_oracleId t = v_earnedToken vault
            ∧ te_decimals t ≠ 0)).
Proof.
  unfold fetchVaultTokensForChain.
  intros (vault & Hvault & Ht)%elem_of_flat_map.
  unfold vaultTokens in Ht. apply elem_of_app in Ht as [Ht|Ht].
  - destruct (v_tokenAddress vault) as [x|] eqn:Ex; [|by apply elem_of_nil in Ht].
    destruct (truthyS x) eqn:Etx; simpl in Ht; [|by apply elem_of_nil in Ht].
    destruct (String.eqb_spec (v_type vault) "cowcentrated") as [|Hty];
      simpl in Ht; [by apply elem_of_nil in Ht|].
    apply list_elem_of_singleton in Ht as ->. simpl.
    apply truthyS_true in Etx.
    split_and!; try done. exists vault. split; [done|]. left. by split_and!.
  - destruct (v_earnedTokenAddress vault) as [x|] eqn:Ex;
      [|by apply elem_of_nil in Ht].
    destruct (truthyS x) eqn:Etx; simpl in Ht; [|by apply elem_of_nil in Ht].
    destruct (String.eqb_spec x "native") as [|Hnat];
      simpl in Ht; [by apply elem_of_nil in Ht|].
    destruct (String.eqb_spec x (v_earnContractAddress vault)) as [|Hself];
      simpl in Ht; [by apply elem_of_nil in Ht|].
    apply list_elem_of_singleton in Ht as ->. simpl.
    apply truthyS_true in Etx.
    split_and!; try done. exists vault. split; [done|]. right.
    split_and!; try done. by apply or_num_nonzero.
Qed.

Lemma vault_adapter_records_witness :
  fetchVaultTokensForChain Scenario.shadowed "eth"
  = [mkToken erc20 "NATIVE" "NATIVE" "NATIVE" "eth" "tokens" "USDC"
       Scenario.USDC 6 None None]
  ∧ ∃ vault, vault ∈ [Scenario.vaultNamedNative]
      ∧ v_tokenAddress vault = Some Scenario.USDC.
Proof.
  split; [vm_compute; reflexivity|].
  destruct (vault_adapter_records Scenario.shadowed "eth"
              (mkToken erc20 "NATIVE" "NATIVE" "NATIVE" "eth" "tokens" "USDC"
                 Scenario.USDC 6 None None))
    as (_ & _ & _ & _ & _ & _ & _ & vault & Hin & [Hdep|Hearn]).
  - vm_compute. left.
  - exists vault. split; [exact Hin|]. apply Hdep.
  - exists vault. split; [exact Hin|].
    destruct Hearn as (_ & _ & _ & Hid & _).
    vm_compute in Hin. apply list_elem_of_singleton in Hin. subst vault.
    discriminate Hid.
Defined.

(** X9. The vault adapter leaves out nothing it should emit: for every vault
    of the listing, a non-empty deposit-token address of a vault that is not
    cowcentrated yields a record at that address, and a non-empty
    earned-token address other than the native sentinel and the vault's earn
    contract yields a record at that address. *)
Theorem vault_adapter_complete src chainId (vault : Vault) :
  vault ∈ default [] (getVaultsByChain src chainId) →
  (∀ x, v_tokenAddress vault = Some x → x ≠ "" →
        v_type vault ≠ "cowcentrated" →
        ∃ t, t ∈ fetchVaultTokensForChain src chainId
             ∧ te_address t = x ∧ te_id t = v_token vault)
  ∧ (∀ x, v_earnedTokenAddress vault = Some x → x ≠ "" → x ≠ "native" →
          x ≠ v_earnContractAddress vault →
          ∃ t, t ∈ fetchVaultTokensForChain src chainId
               ∧ te_address t = x ∧ te_id t = v_earnedToken vault).
Proof.
  intros Hvault. unfold fetchVaultTokensForChain. split.
  - intros x Hx Hne Hty. eexists. split.
    + apply elem_of_flat_map. exists vault. split; [done|].
      unfold vaultTokens. rewrite Hx. apply elem_of_app. left.
      apply truthyS_true in Hne. rewrite Hne.
      apply eqb_false_ne in Hty. rewrite Hty. simpl. left.
    + done.
  - intros x Hx Hne Hnat Hself. eexists. split.
    + apply elem_of_flat_map. exists vault. split; [done|].
      unfold vaultTokens. rewrite Hx. apply elem_of_app. right.
      apply truthyS_true in Hne. rewrite Hne.
      apply eqb_false_ne in Hnat, Hself. rewrite Hnat, Hself. simpl. left.
    + done.
Qed.

Lemma vault_adapter_complete_witness :
  ∃ t, t ∈ fetchVaultTokensForChain Scenario.shadowed "eth"
       ∧ te_address t = Scenario.USDC ∧ te_id t = "NATIVE".
Proof.
  destruct (vault_adapter_complete Scenario.shadowed "eth"
              Scenario.vaultNamedNative) as [Hdep _].
  - vm_compute. left.
  - apply (Hdep Scenario.USDC); [reflexivity|discriminate|discriminate].
Defined.

(** X10. The boost adapter leaves out nothing it should emit: when it
    succeeds, every reward of type token with a non-empty address that is
    neither the native sentinel nor the earn contract of a vault of the
    chain has a record at that address, called by the reward's symbol.  The
    record carries the chain the reward declares, passed through
    [toApiChain], and the requested chain when the reward declares none. *)
Theorem boost_adapter_complete toApiChain src chainId (l : list TokenEntity)
    (boost : Boost) (reward : Reward) address :
  fetchBoostTokensForChain toApiChain src chainId = Ok l →
  boost ∈ default [] (getChainNewBoosts src chainId) →
  reward ∈ rewards boost →
  r_type reward = "token" →
  r_address reward = Some address →
  address ≠ "" → address ≠ "native" →
  (∀ vault, vault ∈ default [] (getSingleChainVaults src chainId) →
     v_earnContractAddress vault ≠ address) →
  ∃ t, t ∈ l
    ∧ te_address t = address ∧ te_id t = r_symbol reward ∧ te_type t = erc20
    ∧ (∀ x, r_chainId reward = Some x → x ≠ "" →
            toApiChain x = Some (te_chainId t))
    ∧ (truthy (r_chainId reward) = false → te_chainId t = chainId).
Proof.
  intros Hl Hb Hr Hty Ha Hne Hnat Hv.
  assert (rewardAccepted (vaultAddressSet src chainId) reward = true) as Hacc.
  { apply rewardAccepted_true. split; [done|]. exists address.
    split_and!; try done. unfold vaultAddressSet.
    rewrite elem_of_list_to_set, list_elem_of_fmap.
    intros (vault & Heq & Hin). by apply (Hv vault Hin). }
  destruct (boostTokens_complete _ _ _ _ _ _ _ Hl Hb Hr Hacc) as (t & Hin & Ht).
  exists t. pose proof (rewardToken_Ok _ _ _ _ Ht) as (? & ? & Haddr & _).
  pose proof (rewardToken_chain _ _ _ _ Ht) as [? ?].
  rewrite Ha in Haddr. split_and!; done.
Qed.

Lemma boost_adapter_complete_witness :
  ∃ t, t ∈ [Scenario.usdcToken] ∧ te_address t = Scenario.USDC
       ∧ te_chainId t = "eth".
Proof.
  destruct (boost_adapter_complete Scenario.toApiChain Scenario.boosted "eth"
              [Scenario.usdcToken] (mkBoost [Scenario.usdcReward;
                                             Scenario.mooReward;
                                             Scenario.nativeReward])
              Scenario.usdcReward Scenario.USDC)
    as (t & Hin & Ha & _ & _ & _ & Hc).
  - vm_compute. reflexivity.
  - vm_compute. left.
  - left.
  - reflexivity.
  - reflexivity.
  - discriminate.
  - discriminate.
  - intros vault Hvault. vm_compute in Hvault.
    apply list_elem_of_singleton in Hvault. subst vault. discriminate.
  - exists t. split; [exact Hin|]. split; [exact Ha|]. apply Hc. reflexivity.
Defined.

(** X11. The boost adapter fails exactly when a reward that passes the
    filter declares a non-empty chain that [toApiChain] rejects; rewards the
    filter drops cannot make it fail.  The failure is the one of
    [toApiChain]. *)
Theorem boost_adapter_fails_iff toApiChain src chainId :
  (is_ok (fetchBoostTokensForChain toApiChain src chainId) = false
   ↔ ∃ boost reward x,
       boost ∈ default [] (getChainNewBoosts src chainId)
       ∧ reward ∈ rewards boost
       ∧ rewardAccepted (vaultAddressSet src chainId) reward = true
       ∧ r_chainId reward = Some x ∧ x ≠ "" ∧ toApiChain x = None)
  ∧ (∀ e, fetchBoostTokensForChain toApiChain src chainId = Err e →
          ∃ x, e = UnknownChain x ∧ toApiChain x = None).
Proof.
  unfold fetchBoostTokensForChain. split.
  - rewrite boostTokens_is_ok. split.
    + intros (boost & reward & ? & ? & ? & (x & ? & ? & ?)%rewardToken_is_ok).
      exists boost, reward, x. done.
    + intros (boost & reward & x & ? & ? & ? & ? & ? & ?).
      exists boost, reward. split_and!; try done.
      apply rewardToken_is_ok. eauto.
  - intros e. apply boostTokens_Err.
Qed.

(** X12. The address-book adapter returns nothing exactly when the chain has
    no address book or its book has no entry keyed WNATIVE. *)
Theorem address_book_adapter_empty_iff src chainId :
  fetchAddressBookTokensForChain src chainId = []
  ↔ ∀ chainBook, addressBook src chainId = Some chainBook →
                 lookup_key "WNATIVE" (tokens chainBook) = None.
Proof.
  unfold fetchAddressBookTokensForChain.
  destruct (addressBook src chainId) as [chainBook|]; [|done].
  destruct (lookup_key "WNATIVE" (tokens chainBook)) as [w|] eqn:Ew.
  - split; [|intros H; specialize (H _ eq_refl); congruence].
    destruct (tokens chainBook) as [|[id token] rest] eqn:Et; [done|].
    simpl. unfold abEntryTokens at 1.
    by destruct (String.eqb (toLowerCase id) _).
  - split; [by intros _ ? [= <-]|]. intros _. by destruct (tokens chainBook).
Qed.

(** X13. What the address-book adapter emits for a book with a WNATIVE
    entry.  Every entry has a record called by its key, and every record is
    called by a key of the book or is the native record called NATIVE.
    Native records sit at the native sentinel, bridged as native, with the
    symbol and oracle id the book declares for the native asset.  Unless the
    native symbol is "wnative", the WNATIVE entry yields an erc20 record at
    its address and a native record called NATIVE with its decimals. *)
Theorem address_book_adapter_records src chainId chainBook w :
  addressBook src chainId = Some chainBook →
  lookup_key "WNATIVE" (tokens chainBook) = Some w →
  (∀ id token, (id, token) ∈ tokens chainBook →
     ∃ t, t ∈ fetchAddressBookTokensForChain src chainId
          ∧ te_id t = id ∧ te_chainId t = chainId
          ∧ te_name t = ab_name token ∧ te_decimals t = ab_decimals token)
  ∧ (∀ t, t ∈ fetchAddressBookTokensForChain src chainId →
       (∃ token, (te_id t, token) ∈ tokens chainBook)
       ∨ (te_id t = "NATIVE" ∧ te_type t = native))
  ∧ (∀ t, t ∈ fetchAddressBookTokensForChain src chainId →
       te_type t = native →
       te_address t = "native" ∧ te_bridge t = Some "native"
       ∧ te_symbol t = n_symbol (native_info chainBook)
       ∧ te_oracleId t = n_oracleId (native_info chainBook))
  ∧ (toLowerCase (n_symbol (native_info chainBook)) ≠ "wnative" →
     ∃ tw tn, tw ∈ fetchAddressBookTokensForChain src chainId
       ∧ tn ∈ fetchAddressBookTokensForChain src chainId
       ∧ te_id tw = "WNATIVE" ∧ te_type tw = erc20
       ∧ te_address tw = ab_address w
       ∧ te_id tn = "NATIVE" ∧ te_type tn = native
       ∧ te_decimals tn = ab_decimals w).
Proof.
  intros Hbook Hw.
  assert (fetchAddressBookTokensForChain src chainId
          = flat_map (abEntryTokens chainId (native_info chainBook))
              (tokens chainBook)) as Hout.
  { unfold fetchAddressBookTokensForChain. rewrite Hbook, Hw.
    destruct (tokens chainBook); [done|done]. }
  rewrite Hout. split_and!.
  - intros id token Hin. unfold abEntryTokens.
    destruct (String.eqb (toLowerCase id)
                (toLowerCase (n_symbol (native_info chainBook)))) eqn:E.
    + eexists. split.
      * apply elem_of_flat_map. exists (id, token). split; [done|].
        simpl. rewrite E. left.
      * done.
    + eexists. split.
      * apply elem_of_flat_map. exists (id, token). split; [done|].
        simpl. rewrite E. left.
      * done.
  - intros t ([id token] & Hin & Ht)%elem_of_flat_map. unfold abEntryTokens in Ht.
    destruct (String.eqb (toLowerCase id)
                (toLowerCase (n_symbol (native_info chainBook)))).
    + apply list_elem_of_singleton in Ht as ->. left. by exists token.
    + apply elem_of_cons in Ht as [->|Ht]; [left; by exists token|].
      destruct (String.eqb id "WNATIVE"); [|by apply elem_of_nil in Ht].
      apply list_elem_of_singleton in Ht as ->. by right.
  - intros t ([id token] & Hin & Ht)%elem_of_flat_map Hty. unfold abEntryTokens in Ht.
    destruct (String.eqb (toLowerCase id)
                (toLowerCase (n_symbol (native_info chainBook)))).
    + by apply list_elem_of_singleton in Ht as ->.
    + apply elem_of_cons in Ht as [->|Ht]; [done|].
      destruct (String.eqb id "WNATIVE"); [|by apply elem_of_nil in Ht].
      by apply list_elem_of_singleton in Ht as ->.
  - intros Hsym. apply lookup_key_Some in Hw.
    assert (String.eqb (toLowerCase "WNATIVE")
              (toLowerCase (n_symbol (native_info chainBook))) = false) as E.
    { apply eqb_false_ne. intros Heq. apply Hsym. by rewrite <- Heq. }
    eexists _, _. split_and!.
    + apply elem_of_flat_map. exists ("WNATIVE", w). split; [done|].
      unfold abEntryTokens. rewrite E. left.
    + apply elem_of_flat_map. exists ("WNATIVE", w). split; [done|].
      unfold abEntryTokens. rewrite E. right. simpl. left.
    + done.
    + done.
    + done.
    + done.
    + done.
    + done.
Qed.

Lemma address_book_adapter_records_witness :
  ∃ tw tn,
    tw ∈ fetchAddressBookTokensForChain Scenario.bookOnly "eth"
    ∧ tn ∈ fetchAddressBookTokensForChain Scenario.bookOnly "eth"
    ∧ te_id tw = "WNATIVE" ∧ te_address tw = Scenario.WETH
    ∧ te_id tn = "NATIVE" ∧ te_decimals tn = 18.
Proof.
  destruct (address_book_adapter_records Scenario.bookOnly "eth" Scenario.ethBook
              Scenario.weth) as (_ & _ & _ & H).
  - reflexivity.
  - reflexivity.
  - destruct H as (tw & tn & Hw & Hn & Hiw & _ & Haw & Hin & _ & Hdn).
    + vm_compute. discriminate.
    + exists tw, tn. split; [exact Hw|]. split; [exact Hn|].
      split; [exact Hiw|]. split; [exact Haw|]. split; [exact Hin|exact Hdn].
Defined.

(** ** Further properties of the refresh *)

(** X14. How the refresh of one chain can fail.  An invalid chain is
    rejected with its own error whatever the sources hold.  For a valid
    chain the only failures are the one of [toApiChain] in the boost
    adapter (on a chain it rejects), the one of [getAddress] in the merge
    (on an address it rejects), and the two presence checks; in particular
    the precedence pass never hits a missing entry. *)
Theorem fetch_failure_reasons getAddress isApiChain toApiChain src chainId :
  (isApiChain chainId = false →
   fetchTokensForChain getAddress isApiChain toApiChain src chainId
   = Err (InvalidChain chainId))
  ∧ (∀ e,
       fetchTokensForChain getAddress isApiChain toApiChain src chainId = Err e →
       (e = InvalidChain chainId ∧ isApiChain chainId = false)
       ∨ (isApiChain chainId = true
          ∧ ((∃ x, e = UnknownChain x ∧ toApiChain x = None)
             ∨ (∃ x, e = InvalidAddress x ∧ getAddress x = None)
             ∨ e = NoNativeLoaded chainId ∨ e = NoWnativeLoaded chainId))).
Proof.
  split.
  - intros Hinv. unfold fetchTokensForChain. by rewrite Hinv.
  - intros e. apply fetchTokensForChain_Err.
Qed.

(** X15. Addresses in a refreshed table.  Every key of the address index is
    lower-cased.  A native entry sits under the native sentinel, has the
    sentinel as its address and is bridged as native.  The address of an
    erc20 entry is what [getAddress] returned for an address whose
    lower-cased form is the key. *)
Theorem refreshed_table_addresses getAddress isApiChain toApiChain src chainId
    table k e :
  fetchTokensForChain getAddress isApiChain toApiChain src chainId = Ok table →
  byAddress table !! k = Some e →
  toLowerCase k = k
  ∧ (te_type e = native →
     k = "native" ∧ te_address e = "native" ∧ te_bridge e = Some "native")
  ∧ (te_type e = erc20 →
     ∃ x, toLowerCase x = k ∧ getAddress x = Some (te_address e)).
Proof.
  intros (_ & bt & Hboost & Hagg)%fetchTokensForChain_inv He.
  destruct (aggregate_entry_origin _ _ _ _ _ _ _ _ Hagg He)
    as (first & later & s & Hat & Hs & Heq).
  apply at_address_head in Hat as [Hin Hk].
  destruct (stored_fields _ _ _ Hs) as (Hty & Hbr & Hnat & Herc).
  assert (te_type e = te_type first ∧ te_address e = te_address s
          ∧ te_bridge e = backfill (te_bridge first) later) as (Hte & Hae & Hbe).
  { rewrite Heq, <- Hty, <- Hbr. by destruct (last _). }
  split_and!.
  - rewrite <- Hk. apply toLowerCase_idem.
  - intros Hn. rewrite Hte in Hn.
    pose proof (merged_native _ _ _ _ _ Hboost Hin Hn) as Haddr.
    pose proof (merged_native_bridge _ _ _ _ _ Hboost Hin Hn) as Hbridge.
    rewrite Hae, (Hnat Hn), Hbe, Hbridge, <- Hk, Haddr.
    split_and!; [done..|]. by apply backfill_truthy.
  - intros Hn. rewrite Hte in Hn. exists (te_address first).
    split; [done|]. rewrite Hae. by apply Herc.
Qed.

Lemma refreshed_table_addresses_witness :
  ∃ table e,
    fetchTokensForChain getAddress_hex Scenario.isApiChain Scenario.toApiChain
      Scenario.bookOnly "eth" = Ok table
    ∧ byAddress table !! "native" = Some e
    ∧ te_address e = "native" ∧ te_bridge e = Some "native".
Proof.
  destruct (fetchTokensForChain getAddress_hex Scenario.isApiChain
              Scenario.toApiChain Scenario.bookOnly "eth") as [table|err] eqn:E;
    [|vm_compute in E; discriminate].
  destruct (byAddress table !! "native") as [e|] eqn:Ee;
    [|vm_compute in E; injection E as <-; vm_compute in Ee; discriminate].
  destruct (refreshed_table_addresses getAddress_hex Scenario.isApiChain
              Scenario.toApiChain Scenario.bookOnly "eth" table "native" e)
    as (_ & Hnat & _).
  - exact E.
  - exact Ee.
  - exists table, e. split; [reflexivity|]. split; [exact Ee|].
    apply Hnat.
    vm_compute in E. injection E as <-. vm_compute in Ee. injection Ee as <-.
    reflexivity.
Defined.



(** X17. No refresh without a wrapped-native record.  When the chain has no
    address book, or its book has no WNATIVE entry, and neither the vault
    adapter nor the boost adapter emits a record called WNATIVE, the refresh
    of the chain fails. *)
Theorem refresh_needs_wrapped_native getAddress isApiChain toApiChain src chainId :
  (∀ chainBook, addressBook src chainId = Some chainBook →
                lookup_key "WNATIVE" (tokens chainBook) = None) →
  (∀ t, t ∈ fetchVaultTokensForChain src chainId → te_id t ≠ "WNATIVE") →
  (∀ l t, fetchBoostTokensForChain toApiChain src chainId = Ok l → t ∈ l →
          te_id t ≠ "WNATIVE") →
  is_ok (fetchTokensForChain getAddress isApiChain toApiChain src chainId) = false.
Proof.
  intros Hbook Hv Hb.
  destruct (fetchTokensForChain getAddress isApiChain toApiChain src chainId)
    as [table|] eqn:E; [|done]. exfalso.
  apply fetchTokensForChain_inv in E as (_ & bt & Hboost & Hagg).
  destruct (aggregate_inv _ _ _ _ _ _ Hagg) as (ba & _ & _ & _ & Hw).
  apply truthy_Some in Hw as (x & Hx & _).
  destruct (aggregate_byId_elem _ _ _ _ _ _ _ _ Hagg Hx) as (t & Hin & Hid & _).
  rewrite !elem_of_app in Hin. destruct Hin as [Hin|[Hin|Hin]].
  - by apply (Hv t).
  - by apply (Hb bt t).
  - apply fetchAddressBookTokensForChain_elem in Hin
      as (chainBook & id & token & Hcb & _ & _).
    pose proof (Hbook _ Hcb) as Hno.
    assert (fetchAddressBookTokensForChain src chainId = []) as Hempty.
    { unfold fetchAddressBookTokensForChain. rewrite Hcb, Hno.
      by destruct (tokens chainBook). }
    destruct (aggregate_byId_elem _ _ _ _ _ _ _ _ Hagg Hx) as (t' & Hin' & Hid' & _).
    rewrite Hempty, app_nil_r, elem_of_app in Hin'.
    destruct Hin' as [Hin'|Hin']; [by apply (Hv t')|by apply (Hb bt t')].
Qed.

Lemma refresh_needs_wrapped_native_witness :
  fetchTokensForChain getAddress_hex Scenario.isApiChain Scenario.toApiChain
    Scenario.bookOnly "bsc" = Err (NoNativeLoaded "bsc")
  ∧ is_ok (fetchTokensForChain getAddress_hex Scenario.isApiChain
             Scenario.toApiChain Scenario.bookOnly "bsc") = false.
Proof.
  split; [vm_compute; reflexivity|].
  apply (refresh_needs_wrapped_native getAddress_hex Scenario.isApiChain
           Scenario.toApiChain Scenario.bookOnly "bsc").
  - intros chainBook Hcb. vm_compute in Hcb. discriminate.
  - intros t Ht. vm_compute in Ht. by apply elem_of_nil in Ht.
  - intros l t Hl Ht. vm_compute in Hl. injection Hl as <-.
    by apply elem_of_nil in Ht.
Defined.

(** X18. A cycle in which every chain succeeds.  The cache then holds, for
    every chain of the cycle, the table the refresh of that chain returned;
    the entries of all other chains are untouched; and the events emitted
    are one ready event per chain, in the order of the chains, followed by
    the single updated event. *)
Theorem updateTokens_success getAddress isApiChain toApiChain src
    (chains : list string) (byChain : list ChainTokens) (s : Service) :
  mapR (fetchTokensForChain getAddress isApiChain toApiChain src) chains
  = Ok byChain →
  emitted (updateTokens getAddress isApiChain toApiChain src chains s)
  = (emitted s
     ++ map (λ chainId, "tokens/" +:+ chainId +:+ "/ready") chains
     ++ ["tokens/updated"])%list
  ∧ (∀ chainId, chainId ∈ chains →
       ∃ table,
         fetchTokensForChain getAddress isApiChain toApiChain src chainId
         = Ok table
         ∧ tokensByChain
             (updateTokens getAddress isApiChain toApiChain src chains s)
           !! chainId = Some table)
  ∧ (∀ chainId, chainId ∉ chains →
       tokensByChain (updateTokens getAddress isApiChain toApiChain src chains s)
       !! chainId = tokensByChain s !! chainId).
Proof.
  intros Hall. unfold updateTokens. rewrite Hall. simpl.
  pose proof (mapR_Ok _ _ _ Hall) as Hf2. split_and!.
  - rewrite publish_emitted by (symmetry; by eapply mapR_length).
    by rewrite <- app_assoc.
  - intros chainId Hin. by apply (publish_lookup_all chains byChain s chainId Hf2).
  - intros chainId Hnot. by apply publish_other.
Qed.

Lemma updateTokens_success_witness :
  emitted (updateTokens getAddress_hex Scenario.isApiChain Scenario.toApiChain
             Scenario.bookOnly ["eth"] Scenario.emptyService)
  = ["tokens/eth/ready"; "tokens/updated"].
Proof.
  destruct (mapR (fetchTokensForChain getAddress_hex Scenario.isApiChain
                    Scenario.toApiChain Scenario.bookOnly) ["eth"])
    as [byChain|err] eqn:E; [|vm_compute in E; discriminate].
  destruct (updateTokens_success getAddress_hex Scenario.isApiChain
              Scenario.toApiChain Scenario.bookOnly ["eth"] byChain
              Scenario.emptyService E) as (Hev & _).
  rewrite Hev. reflexivity.
Defined.

(** X19. Refreshing twice from unchanged sources leaves the cache as the
    first refresh left it, whether the cycle succeeds or fails. *)
Theorem updateTokens_idempotent getAddress isApiChain toApiChain src
    (chains : list string) (s : Service) :
  tokensByChain
    (updateTokens getAddress isApiChain toApiChain src chains
       (updateTokens getAddress isApiChain toApiChain src chains s))
  = tokensByChain (updateTokens getAddress isApiChain toApiChain src chains s).
Proof.
  destruct (mapR (fetchTokensForChain getAddress isApiChain toApiChain src) chains)
    as [byChain|err] eqn:E.
  - apply map_eq. intros chainId.
    pose proof (mapR_Ok _ _ _ E) as Hf2.
    unfold updateTokens. rewrite E. simpl.
    destruct (decide (chainId ∈ chains)) as [Hin|Hnot].
    + destruct (publish_lookup_all chains byChain s chainId Hf2 Hin)
        as (ta & Hta & ->).
      destruct (publish_lookup_all chains byChain
                  (mkService (tokensByChain (publish chains byChain s))
                     (emitted (publish chains byChain s) ++ ["tokens/updated"]))
                  chainId Hf2 Hin) as (tb & Htb & ->).
      congruence.
    + by rewrite publish_other by done.
  - unfold updateTokens. by rewrite E.
Qed.



(** X21. When the refresh of a chain succeeds.  For a valid chain whose
    boost adapter succeeds and whose address book has a WNATIVE entry (the
    native symbol not being "wnative"), the refresh succeeds as soon as
    [getAddress] accepts the address of every erc20 record the three
    adapters emit.  [getAddress] is taken to reject the empty string. *)
Theorem refresh_succeeds getAddress isApiChain toApiChain src chainId
    (boostRecords : list TokenEntity) chainBook w :
  getAddress "" = None →
  isApiChain chainId = true →
  fetchBoostTokensForChain toApiChain src chainId = Ok boostRecords →
  addressBook src chainId = Some chainBook →
  lookup_key "WNATIVE" (tokens chainBook) = Some w →
  toLowerCase (n_symbol (native_info chainBook)) ≠ "wnative" →
  (∀ t, t ∈ (fetchVaultTokensForChain src chainId ++ boostRecords
             ++ fetchAddressBookTokensForChain src chainId)%list →
        te_type t = erc20 → is_Some (getAddress (te_address t))) →
  is_ok (fetchTokensForChain getAddress isApiChain toApiChain src chainId) = true.
Proof.
  intros Hga Hvalid Hboost Hbook Hw Hsym Haddr.
  unfold fetchTokensForChain. rewrite Hvalid, Hboost. simpl.
  destruct (address_book_roles src chainId chainBook w Hbook Hw Hsym)
    as (tw & tn & Hinw & Hinn & Hidw & Hidn).
  assert (∀ t, t ∈ (fetchVaultTokensForChain src chainId ++ boostRecords
                    ++ fetchAddressBookTokensForChain src chainId)%list →
               te_address t ≠ "") as Hnonempty.
  { intros t Hin Hempty.
    destruct (merged_variant toApiChain src chainId boostRecords t Hboost Hin)
      as [?|[Hty _]]; [done|].
    destruct (Haddr t Hin Hty) as [x Hx]. rewrite Hempty in Hx. congruence. }
  assert (∀ i t, t ∈ fetchAddressBookTokensForChain src chainId → te_id t = i →
            ∃ t' later,
              with_id i (fetchVaultTokensForChain src chainId ++ boostRecords
                         ++ fetchAddressBookTokensForChain src chainId)
              = t' :: later ∧ te_address t' ≠ "") as Hrole.
  { intros i t Hin Hi.
    destruct (with_id_elem i
                (fetchVaultTokensForChain src chainId ++ boostRecords
                 ++ fetchAddressBookTokensForChain src chainId) t)
      as (t' & later & Hwith); [rewrite !elem_of_app; auto|done|].
    exists t', later. split; [done|].
    apply with_id_head in Hwith as [Hin' _]. by apply Hnonempty. }
  destruct (aggregate_ok_intro getAddress chainId
              (fetchVaultTokensForChain src chainId) boostRecords
              (fetchAddressBookTokensForChain src chainId)) as [table ->];
    [|exact (Hrole _ tn Hinn Hidn)|exact (Hrole _ tw Hinw Hidw)|done].
  intros k first later Hat. apply at_address_head in Hat as [Hin _].
  unfold stored. destruct (te_type first) eqn:Ety; [eauto|].
  destruct (Haddr first Hin Ety) as [x ->]. simpl. eauto.
Qed.

Lemma refresh_succeeds_witness :
  is_ok (fetchTokensForChain getAddress_hex Scenario.isApiChain
           Scenario.toApiChain Scenario.boosted "eth") = true.
Proof.
  apply (refresh_succeeds getAddress_hex Scenario.isApiChain Scenario.toApiChain
           Scenario.boosted "eth" [Scenario.usdcToken] Scenario.ethBook
           Scenario.weth).
  - reflexivity.
  - reflexivity.
  - vm_compute. reflexivity.
  - reflexivity.
  - reflexivity.
  - vm_compute. discriminate.
  - intros t Ht Hty.
    assert ((fetchVaultTokensForChain Scenario.boosted "eth"
             ++ [Scenario.usdcToken]
             ++ fetchAddressBookTokensForChain Scenario.boosted "eth")%list
            = [mkToken erc20 "NATIVE" "NATIVE" "NATIVE" "eth" "tokens" "USDC"
                 Scenario.USDC 6 None None;
               Scenario.usdcToken; Scenario.wnativeToken; Scenario.nativeToken])
      as Hl by (vm_compute; reflexivity).
    rewrite Hl in Ht. rewrite !elem_of_cons, elem_of_nil in Ht.
    destruct Ht as [->|[->|[->|[->|[]]]]];
      first [discriminate Hty | vm_compute; eauto].
Defined.
